(** * The tablature-to-ABC transcoder of [streamlit_app.py]

    A shallow embedding of [process_guitar_pro] and of its two local helpers
    [midi_to_abc] and [identify_chord], followed by the properties that the
    specification states about them.

    Conventions of the embedding:
    - Python [int] is [Z]; [%] and [//] with the positive divisor 12 are
      [Z.modulo] and [Z.div] (both round towards minus infinity);
    - Python [str] is [string], read as a sequence of ASCII characters;
    - an attribute probed with [hasattr]/[getattr] is an [option] field;
    - a Python [dict] is a [gmap], a missing key raises [KeyError];
    - a Python [set] is a [gset];
    - an uncaught exception is the [Raise] result;
    - a Python [float] is an IEEE 754 binary64 number, with the operations
      of [SpecFloat] at precision 53; an [int] operand is converted first,
      which is exact below [2^53]. *)

From Stdlib Require Import ZArith QArith Ascii String List Bool Lia.
From Stdlib Require Import DecimalString SpecFloat.
From stdpp Require Import base option list strings gmap sorting.

Open Scope Z_scope.

(** ** Exceptions *)

Inductive exn : Type := KeyError | IndexError.

Inductive result (A : Type) : Type :=
| Ok (a : A)
| Raise (e : exn).
Arguments Ok {A} a.
Arguments Raise {A} e.

Global Instance result_ret : MRet result := @Ok.
Global Instance result_bind : MBind result := λ A B f m,
  match m with Ok a => f a | Raise e => Raise e end.
Global Instance result_fmap : FMap result := λ A B f m,
  match m with Ok a => Ok (f a) | Raise e => Raise e end.

(** [for x in l: ...] where the body may raise and yields lines or tokens. *)
Fixpoint for_each {A B : Type} (f : A → result (list B)) (l : list A)
  : result (list B) :=
  match l with
  | [] => Ok []
  | x :: l' => ys ← f x; zs ← for_each f l'; Ok (ys ++ zs)
  end.

(** ** Python primitives *)

Module Py.

(** [l[i]]: negative indices count from the end, anything else out of range
    raises [IndexError]. *)
Definition index {A : Type} (l : list A) (i : Z) : result A :=
  let n := Z.of_nat (length l) in
  let j := if i <? 0 then i + n else i in
  if (0 <=? j) && (j <? n) then
    match l !! Z.to_nat j with
    | Some x => Ok x
    | None => Raise IndexError
    end
  else Raise IndexError.

(** [d[k]] *)
Definition getitem {V : Type} (d : gmap Z V) (k : Z) : result V :=
  match d !! k with
  | Some v => Ok v
  | None => Raise KeyError
  end.

(** [str(n)] for an [int] *)
Definition str (n : Z) : string := NilZero.string_of_int (Z.to_int n).

(** [s * n] for a string [s] *)
Definition mul (s : string) (n : Z) : string :=
  String.concat "" (replicate (Z.to_nat n) s).

(** [sep.join(l)] *)
Definition join (sep : string) (l : list string) : string :=
  String.concat sep l.

(** [s.startswith(p)] *)
Definition startswith (p s : string) : bool := String.prefix p s.

(** [p in s] for strings *)
Fixpoint contains (p s : string) : bool :=
  String.prefix p s ||
  match s with
  | EmptyString => false
  | String _ s' => contains p s'
  end.

(** [s.endswith(p)] *)
Definition endswith (p s : string) : bool :=
  let n := String.length s in
  let k := String.length p in
  (k <=? n)%nat && String.eqb (String.substring (n - k) k s) p.

(** [s[:-1]] *)
Definition drop_last (s : string) : string :=
  String.substring 0 (String.length s - 1) s.

(** [s[i]] *)
Definition char_at (s : string) (i : Z) : result string :=
  c ← index (list_ascii_of_string s) i; Ok (String c EmptyString).

Definition upper_ascii (c : ascii) : ascii :=
  let n := nat_of_ascii c in
  if (97 <=? n)%nat && (n <=? 122)%nat then ascii_of_nat (n - 32) else c.

Definition lower_ascii (c : ascii) : ascii :=
  let n := nat_of_ascii c in
  if (65 <=? n)%nat && (n <=? 90)%nat then ascii_of_nat (n + 32) else c.

Fixpoint map_string (f : ascii → ascii) (s : string) : string :=
  match s with
  | EmptyString => EmptyString
  | String c s' => String (f c) (map_string f s')
  end.

(** [s.upper()], [s.lower()] *)
Definition upper : string → string := map_string upper_ascii.
Definition lower : string → string := map_string lower_ascii.

(** ASCII white space: tab, line feed, vertical tab, form feed, carriage
    return, the four separators 28-31 and the space. *)
Definition is_space (c : ascii) : bool :=
  let n := nat_of_ascii c in
  ((9 <=? n)%nat && (n <=? 13)%nat) || ((28 <=? n)%nat && (n <=? 32)%nat).

Fixpoint lstrip (s : string) : string :=
  match s with
  | EmptyString => EmptyString
  | String c s' => if is_space c then lstrip s' else s
  end.

Fixpoint rstrip (s : string) : string :=
  match s with
  | EmptyString => EmptyString
  | String c s' =>
      match rstrip s' with
      | EmptyString => if is_space c then EmptyString else String c EmptyString
      | r => String c r
      end
  end.

(** [s.strip()] *)
Definition strip (s : string) : string := rstrip (lstrip s).

(** truth value of a string and of an [int] *)
Definition truthy_str (s : string) : bool := negb (String.eqb s "").
Definition truthy_int (n : Z) : bool := negb (n =? 0).

(** [sorted(l)] on integers *)
Definition sorted (l : list Z) : list Z := merge_sort Z.le l.

(** [l[i:i+n]] and the list comprehension over [range(0, len(l), n)] *)
Fixpoint chunks_fuel (fuel n : nat) (l : list string) : list (list string) :=
  match fuel with
  | O => []
  | S fuel' =>
      match l with
      | [] => []
      | _ => take n l :: chunks_fuel fuel' n (drop n l)
      end
  end.

Definition chunks (n : nat) (l : list string) : list (list string) :=
  chunks_fuel (length l) n l.

End Py.

(** ** Python floats *)

Module Binary64.

Definition prec : Z := 53.
Definition emax : Z := 1024.

(** [float(n)] for an [int] *)
Definition of_int (n : Z) : spec_float := binary_normalize prec emax n 0 false.

(** [x / y] and [x * y] *)
Definition div : spec_float → spec_float → spec_float := SFdiv prec emax.
Definition mul : spec_float → spec_float → spec_float := SFmul prec emax.

(** [x == y], [x < y] *)
Definition eqb : spec_float → spec_float → bool := SFeqb.
Definition ltb : spec_float → spec_float → bool := SFltb.

(** [int(x)]: truncation towards zero *)
Definition int_of (x : spec_float) : Z :=
  match x with
  | S754_finite s m e =>
      let v := if 0 <=? e then Z.pos m * 2 ^ e else Z.pos m / 2 ^ (- e) in
      if s then - v else v
  | _ => 0
  end.

(** The literal [1.5] *)
Definition one_and_half : spec_float := div (of_int 3) (of_int 2).

End Binary64.

(** ** The song model read by the transcoder *)

(** The transcoder probes most attributes before it reads them.  A field
    below holds what the probe leaves: [None] when the attribute is missing,
    [None] (Python) or false in a truth test; a text field holds the text
    that is read from the attribute ([x.value], [x.title] or [str(x)]). *)

Module Duration.
Record t : Type := { value : Z; isDotted : bool }.
End Duration.

(** [note.effect]: [bend] and [harmonic] record [is not None]; the other
    flags are read with [getattr] and tested for truth; [isHammerOn] is
    [getattr(effect, 'isHammerOn', True)]. *)
Module NoteEffect.
Record t : Type := {
  bend : bool;
  hammer : bool;
  isHammerOn : option bool;
  harmonic : bool;
  slides : bool;
  vibrato : bool;
  palmMute : bool;
  staccato : bool;
  tapping : bool;
  tremoloPicking : bool
}.
End NoteEffect.

Module BeatEffect.
Record t : Type := { tremoloBar : bool; slide : bool; vibrato : bool }.
End BeatEffect.

Module Note.
Record t : Type := {
  string : Z;                        (* 1-based string number *)
  value : Z;                         (* fret *)
  effect : option NoteEffect.t
}.
End Note.

Module Beat.
Record t : Type := {
  duration : option Duration.t;
  notes : list Note.t;
  text : option String.string;
  effect : option BeatEffect.t
}.
End Beat.

Module Voice.
Record t : Type := { beats : list Beat.t }.
End Voice.

(** [header.repeat]: [closings] is 0 when missing or false. *)
Module Repeat.
Record t : Type := { closings : Z; close : bool; open : bool }.
End Repeat.

Module TimeSignature.
Record t : Type := { numerator : Z; denominator : Duration.t }.
End TimeSignature.

(** [repeatAlternative] is 0 when missing or false. *)
Module MeasureHeader.
Record t : Type := {
  timeSignature : TimeSignature.t;
  marker : option String.string;
  text : option String.string;
  direction : option String.string;
  annotation : option String.string;
  comment : option String.string;
  repeatAlternative : Z;
  repeat : option Repeat.t
}.
End MeasureHeader.

Module Measure.
Record t : Type := { header : MeasureHeader.t; voices : list Voice.t }.
End Measure.

(** [instrument] is [track.channel.instrument]; [strings] holds the
    [value] (open pitch) of each string, in declaration order;
    [description] and [comments] are empty when missing. *)
Module Track.
Record t : Type := {
  name : String.string;
  number : Z;
  isPercussionTrack : bool;
  instrument : option Z;
  strings : list Z;
  measures : list Measure.t;
  description : String.string;
  comments : String.string
}.
End Track.

(** What [song.key] (or [song.keySignature]) can be to the code: absent or
    false; a subscriptable pair of integers; an object that is not
    subscriptable, with its [value] attribute (when present and true) and
    its [str()]; or a text, which is subscriptable too. *)
Inductive KeyInfo : Type :=
| KeyAbsent
| KeyPair (sharps is_minor : Z)
| KeyObject (val : option (Z * Z)) (name : String.string)
| KeyText (text : String.string).

(** [title], [artist], [album] and [composer] are [None] when the attribute
    is missing; the other texts are empty when missing. *)
Module Song.
Record t : Type := {
  tempo : Z;
  key : KeyInfo;
  tracks : list Track.t;
  title : option String.string;
  artist : option String.string;
  album : option String.string;
  composer : option String.string;
  copyright : String.string;
  instructions : String.string;
  notice : String.string;
  subtitles : list String.string
}.
End Song.

(** ** Duration encoding (the three copies at the rest, chord and single-note
    branches are the same code) *)

Definition duration_code (duration : option Duration.t) : Z :=
  match duration with Some d => Duration.value d | None => 4 end.

Definition length_multiplier (duration : option Duration.t) : spec_float :=
  let dur := duration_code duration in
  let m := if dur =? 0 then Binary64.of_int 16
           else Binary64.div (Binary64.of_int 16) (Binary64.of_int dur) in
  match duration with
  | Some d =>
      if Duration.isDotted d then Binary64.mul m Binary64.one_and_half else m
  | None => m
  end.

Definition duration_suffix (duration : option Duration.t) : string :=
  let m := length_multiplier duration in
  if Binary64.eqb m (Binary64.of_int 1) then ""
  else if Binary64.ltb m (Binary64.of_int 1)
  then "/" +:+ Py.str (Binary64.int_of (Binary64.div (Binary64.of_int 1) m))
  else Py.str (Binary64.int_of m).

(** ** Pitch encoding *)

Definition note_names : list string :=
  ["C"; "^C"; "D"; "^D"; "E"; "F"; "^F"; "G"; "^G"; "A"; "^A"; "B"]%string.

Definition midi_to_abc (pitch : Z) : result string :=
  name ← Py.index note_names (pitch mod 12);
  let octave := pitch / 12 - 1 in
  let base_octave := 4 in
  letter ← (if Py.startswith "^" name then Py.char_at name 1
            else Py.char_at name 0);
  let abc_letter :=
    if octave >=? base_octave then
      let abc_letter :=
        if octave =? base_octave then Py.upper letter else Py.lower letter in
      if octave >? base_octave + 1
      then (abc_letter ++ Py.mul "'" (octave - 5))%string
      else abc_letter
    else (Py.upper letter ++ Py.mul "," (base_octave - octave))%string in
  Ok (if Py.startswith "^" name then ("^" ++ abc_letter)%string
      else abc_letter).

(** ** Chord recognition *)

Definition name_map : gmap Z string :=
  list_to_map
    [(0, "C"); (1, "C#"); (2, "D"); (3, "D#"); (4, "E"); (5, "F");
     (6, "F#"); (7, "G"); (8, "G#"); (9, "A"); (10, "A#"); (11, "B")]%string.

Definition pitch_classes (pitches : list Z) : list Z :=
  Py.sorted (elements (list_to_set ((λ p, p mod 12) <$> pitches) : gset Z)).

Definition triad_suffix (intervals : list Z) : option string :=
  if bool_decide (intervals = [4; 7]) then Some "maj"%string
  else if bool_decide (intervals = [3; 7]) then Some "min"%string
  else if bool_decide (intervals = [3; 6]) then Some "dim"%string
  else if bool_decide (intervals = [4; 8]) then Some "aug"%string
  else if bool_decide (intervals = [2; 7]) then Some "sus2"%string
  else if bool_decide (intervals = [5; 7]) then Some "sus4"%string
  else None.

Definition tetrad_suffix (intervals : list Z) : option string :=
  if bool_decide (intervals = [4; 7; 10]) then Some "7"%string
  else if bool_decide (intervals = [3; 7; 10]) then Some "min7"%string
  else if bool_decide (intervals = [4; 7; 11]) then Some "maj7"%string
  else if bool_decide (intervals = [3; 6; 10]) then Some "min7b5"%string
  else if bool_decide (intervals = [3; 6; 9]) then Some "dim7"%string
  else if bool_decide (intervals = [4; 7; 9]) then Some "6"%string
  else if bool_decide (intervals = [3; 7; 9]) then Some "min6"%string
  else None.

(** The three [if len(rel) == ...] blocks, from the sorted [rel] and the
    name of the root. *)
Definition label_of_intervals (rel : list Z) (root_name : string)
  : result (option string) :=
  let intervals := drop 1 rel in
  if (length rel =? 2)%nat then
    r1 ← Py.index rel 1;
    if r1 =? 7 then Ok (Some (root_name +:+ "5")) else Ok None
  else
    match (if (length rel =? 3)%nat then triad_suffix intervals
           else None) with
    | Some sfx => Ok (Some (root_name +:+ sfx))
    | None =>
        match (if (length rel =? 4)%nat then tetrad_suffix intervals
               else None) with
        | Some sfx => Ok (Some (root_name +:+ sfx))
        | None => Ok None
        end
    end.

Definition identify_chord (pitches : list Z) : result (option string) :=
  let pcs := pitch_classes pitches in
  match pcs with
  | [] => Ok None
  | root :: _ =>
      let rel := Py.sorted ((λ pc, (pc - root) mod 12) <$> pcs) in
      root_name ← Py.getitem name_map root;
      label_of_intervals rel root_name
  end.

(** ** Key and time signature *)

Definition major_map : gmap Z string :=
  list_to_map
    [(0, "C"); (1, "G"); (2, "D"); (3, "A"); (4, "E"); (5, "B"); (6, "F#");
     (7, "C#"); (-1, "F"); (-2, "Bb"); (-3, "Eb"); (-4, "Ab"); (-5, "Db");
     (-6, "Gb"); (-7, "Cb")]%string.

Definition minor_map : gmap Z string :=
  list_to_map
    [(0, "Am"); (1, "Em"); (2, "Bm"); (3, "F#m"); (4, "C#m"); (5, "G#m");
     (6, "D#m"); (7, "A#m"); (-1, "Dm"); (-2, "Gm"); (-3, "Cm"); (-4, "Fm");
     (-5, "Bbm"); (-6, "Ebm"); (-7, "Abm")]%string.

(** The note names tried against [str(key_info)], in the order of the loop. *)
Definition key_note_names : list string :=
  ["C"; "G"; "D"; "A"; "E"; "B"; "F#"; "C#"; "F"; "Bb"; "Eb"; "Ab"; "Db";
   "Gb"; "Cb"]%string.

(** [for noteName in [...]: if noteName in name: key_text = noteName; break] *)
Definition key_from_name (key_text name : string) : string :=
  match find (λ noteName, Py.contains noteName name) key_note_names with
  | Some noteName => noteName
  | None => key_text
  end.

(** The [is_minor] of the name branch, computed and then not read again. *)
Definition minor_from_name (name : string) : Z :=
  if Py.contains "Minor" name then 1 else 0.

Definition resolve_key (key_info : KeyInfo) : result string :=
  let key_text := "C"%string in
  match key_info with
  | KeyAbsent => Ok key_text
  | KeyPair sharps is_minor
  | KeyObject (Some (sharps, is_minor)) _ =>
      if Py.truthy_int is_minor then Py.getitem minor_map sharps
      else Py.getitem major_map sharps
  | KeyObject None name =>
      let is_minor := minor_from_name name in
      Ok (key_from_name key_text name)
  | KeyText text =>
      (* an empty text is false; [text[1]] raises [IndexError] on a text of
         one character, which the [except] sends to the name branch; the
         characters of a longer text are no keys of the tables *)
      if Py.truthy_str text then
        if (2 <=? String.length text)%nat then Raise KeyError
        else
          let is_minor := minor_from_name text in
          Ok (key_from_name key_text text)
      else Ok key_text
  end.

Definition resolve_time_signature (song : Song.t) : Z * Z :=
  match Song.tracks song with
  | track0 :: _ =>
      match Track.measures track0 with
      | measure0 :: _ =>
          let ts := MeasureHeader.timeSignature (Measure.header measure0) in
          (TimeSignature.numerator ts,
           Duration.value (TimeSignature.denominator ts))
      | [] => (4, 4)
      end
  | [] => (4, 4)
  end.

(** ** Fixed texts *)

Definition dquote : string := String "034"%char EmptyString.
Definition newline : string := String "010"%char EmptyString.
Definition backslash : string := String "092"%char EmptyString.

Definition or_default (o : option string) (d : string) : string :=
  match o with Some s => s | None => d end.

(** What the song-level resolution leaves for the tracks. *)
Record Context : Type := {
  song_title : string;
  song_artist : string;
  song_album : string;
  song_composer : string;
  song_subtitles : list string;
  ctx_tempo : Z;
  key_text : string;
  num : Z;
  den : Z
}.

Definition preamble (song : Song.t) (ctx : Context) : list string :=
  let song_copyright := Song.copyright song in
  let song_instructions := Song.instructions song in
  let song_notice := Song.notice song in
  ["Custom ABC notation enhancements:";
   "- Chords are labeled in brackets (e.g. [C5] for C power chord)";
   "- Guitar techniques are noted with separate parentheses:";
   "  - **(b)** for a pitch bend";
   "  - **(h)** for a harmonic";
   "  - **(s)** for a slide between notes";
   "  - **(ho)** for a hammer-on";
   "  - **(po)** for a pull-off";
   "- Song sections are marked with: {SECTION: name}";
   "- Lyrics are included as: " +:+ dquote +:+ "Lyric text" +:+ dquote
     +:+ newline]
  ++ ["Title: " +:+ song_title ctx]
  ++ (if bool_decide (song_artist ctx ≠ "Unknown Artist")
      then ["Artist: " +:+ song_artist ctx] else [])
  ++ (if bool_decide (song_album ctx ≠ "Unknown Album")
      then ["Album: " +:+ song_album ctx] else [])
  ++ (if bool_decide (song_composer ctx ≠ "Unknown Composer")
      then ["Composer: " +:+ song_composer ctx] else [])
  ++ (if Py.truthy_str song_copyright
      then ["Copyright: " +:+ song_copyright] else [])
  ++ (if Py.truthy_str song_notice then ["Notes: " +:+ song_notice] else [])
  ++ (if Py.truthy_str song_instructions
      then ["Instructions: " +:+ song_instructions] else [])
  ++ (match song_subtitles ctx with
      | [] => []
      | _ => ["Subtitles: " +:+ Py.join " / " (song_subtitles ctx)]
      end)
  ++ ["Tempo: " +:+ Py.str (ctx_tempo ctx) +:+ " BPM"]
  ++ [if Py.endswith "m" (key_text ctx)
      then "Key: " +:+ Py.drop_last (key_text ctx) +:+ " minor"
      else "Key: " +:+ key_text ctx +:+ " major"]
  ++ ["Time Signature: " +:+ Py.str (num ctx) +:+ "/" +:+ Py.str (den ctx)
      +:+ newline].

(** ** Measure headers *)

Definition section_keywords : list (string * list string) :=
  [("VERSE", ["verse"; "v1"; "v2"; "v3"; "v4"; "verse 1"; "verse 2"]);
   ("CHORUS", ["chorus"; "ch"; "chor"; "refrain"]);
   ("BRIDGE", ["bridge"; "br"; "middle eight"]);
   ("INTRO", ["intro"; "introduction"]);
   ("OUTRO", ["outro"; "ending"; "coda"; "end"]);
   ("SOLO", ["solo"; "instrumental"; "inst"; "guitar solo"; "bass solo"]);
   ("PRE-CHORUS", ["pre-chorus"; "pre chorus"; "prechorus"; "pre-verse"]);
   ("INTERLUDE", ["interlude"; "break"; "intermezzo"])].

Definition section_type_of (section_text : string) : option string :=
  fst <$>
  find (λ entry : string * list string,
          existsb (λ keyword,
                     Py.contains (Py.lower keyword) (Py.lower section_text))
                  (snd entry))
       section_keywords.

Definition marker_lines (header : MeasureHeader.t) : list string :=
  match MeasureHeader.marker header with
  | Some section_name =>
      if Py.truthy_str section_name
      then ["{SECTION: " +:+ section_name +:+ "}"]
      else []
  | None => []
  end.

(** The loop over ['text', 'direction', 'annotation', 'comment']: the first
    attribute whose text is not blank is emitted and ends the loop. *)
Fixpoint text_lines (attrs : list (option string)) : list string :=
  match attrs with
  | [] => []
  | None :: rest => text_lines rest
  | Some text_value :: rest =>
      if Py.truthy_str text_value && Py.truthy_str (Py.strip text_value) then
        let section_text := Py.strip text_value in
        match section_type_of section_text with
        | Some section_type =>
            ["{SECTION: " +:+ section_type +:+ " - " +:+ section_text +:+ "}"]
        | None => ["{TEXT: " +:+ section_text +:+ "}"]
        end
      else text_lines rest
  end.

Definition alternative_lines (header : MeasureHeader.t) : list string :=
  let alt := MeasureHeader.repeatAlternative header in
  if Py.truthy_int alt then ["{ALTERNATIVE: " +:+ Py.str alt +:+ "}"] else [].

Definition repeat_lines (header : MeasureHeader.t) : list string :=
  match MeasureHeader.repeat header with
  | Some rep =>
      if Py.truthy_int (Repeat.closings rep)
      then ["{REPEAT: " +:+ Py.str (Repeat.closings rep) +:+ " times}"]
      else if Repeat.close rep then ["{REPEAT END}"]
      else if Repeat.open rep then ["{REPEAT START}"]
      else []
  | None => []
  end.

Definition header_lines (header : MeasureHeader.t) : list string :=
  marker_lines header
  ++ text_lines [MeasureHeader.text header; MeasureHeader.direction header;
                 MeasureHeader.annotation header; MeasureHeader.comment header]
  ++ alternative_lines header
  ++ repeat_lines header.

(** ** Beats *)

Definition rest_token (beat : Beat.t) : string :=
  "z" +:+ duration_suffix (Beat.duration beat).

(** The beat-level text annotation, reached only when the beat has notes. *)
Definition text_tokens (beat : Beat.t) : list string :=
  match Beat.text beat with
  | Some text_value =>
      if Py.truthy_str (Py.strip text_value)
      then [dquote +:+ "(" +:+ text_value +:+ ")" +:+ dquote]
      else []
  | None => []
  end.

(** The pitches of a multi-note beat: a note whose string number is beyond
    the declared strings adds no pitch. *)
Definition chord_pitches (strings : list Z) (notes : list Note.t)
  : result (list Z) :=
  for_each
    (λ note,
       if Note.string note <=? Z.of_nat (length strings) then
         open_pitch ← Py.index strings (Note.string note - 1);
         Ok [open_pitch + Note.value note]
       else Ok [])
    notes.

Definition chord_token (strings : list Z) (beat : Beat.t) : result string :=
  pitches ← chord_pitches strings (Beat.notes beat);
  chord_label ← identify_chord pitches;
  chord_repr ←
    match chord_label with
    | Some label =>
        if Py.truthy_str label then Ok ("[" +:+ label +:+ "]")
        else
          names ← for_each (λ p, s ← midi_to_abc p; Ok [s]) (Py.sorted pitches);
          Ok ("[" +:+ Py.join "" names +:+ "]")
    | None =>
        names ← for_each (λ p, s ← midi_to_abc p; Ok [s]) (Py.sorted pitches);
        Ok ("[" +:+ Py.join "" names +:+ "]")
    end;
  Ok (chord_repr +:+ duration_suffix (Beat.duration beat)).

(** The pitch of the note of a single-note beat: open pitch 0 when its string
    number is beyond the declared strings. *)
Definition note_pitch (strings : list Z) (note : Note.t) : result Z :=
  open_pitch ←
    (if Note.string note <=? Z.of_nat (length strings)
     then Py.index strings (Note.string note - 1)
     else Ok 0);
  Ok (open_pitch + Note.value note).

Definition note_level_effects (e : NoteEffect.t) : list string :=
  (if NoteEffect.bend e then ["b"] else [])
  ++ (if NoteEffect.hammer e
      then [if default true (NoteEffect.isHammerOn e) then "ho" else "po"]
      else [])
  ++ (if NoteEffect.harmonic e then ["h"] else [])
  ++ (if NoteEffect.slides e then ["s"] else [])
  ++ (if NoteEffect.vibrato e then ["v"] else [])
  ++ (if NoteEffect.palmMute e then ["pm"] else [])
  ++ (if NoteEffect.staccato e then ["st"] else [])
  ++ (if NoteEffect.tapping e then ["t"] else [])
  ++ (if NoteEffect.tremoloPicking e then ["tr"] else []).

Definition append_new (effect : string) (effects : list string) : list string :=
  if bool_decide (effect ∉ effects) then effects ++ [effect] else effects.

Definition beat_level_effects (e : BeatEffect.t) (effects : list string)
  : list string :=
  let effects :=
    if BeatEffect.tremoloBar e || BeatEffect.slide e
    then append_new "s" effects else effects in
  if BeatEffect.vibrato e then append_new "v" effects else effects.

Definition effect_markers (note : Note.t) (beat : Beat.t) : list string :=
  let effects :=
    match Note.effect note with
    | Some e => note_level_effects e
    | None => []
    end in
  match Beat.effect beat with
  | Some e => beat_level_effects e effects
  | None => effects
  end.

Definition note_token (strings : list Z) (note : Note.t) (beat : Beat.t)
  : result string :=
  pitch ← note_pitch strings note;
  note_repr ← midi_to_abc pitch;
  let note_repr :=
    foldl (λ note_repr effect, note_repr +:+ "(" +:+ effect +:+ ")")
          note_repr (effect_markers note beat) in
  Ok (note_repr +:+ duration_suffix (Beat.duration beat)).

(** One iteration of [for beat_idx, beat in enumerate(voice.beats)]: the
    tokens appended to [bar_content]. *)
Definition beat_tokens (strings : list Z) (beat : Beat.t)
  : result (list string) :=
  match Beat.notes beat with
  | [] => Ok [rest_token beat]
  | note :: _ =>
      token ← (if 1 <? Z.of_nat (length (Beat.notes beat))
               then chord_token strings beat
               else note_token strings note beat);
      Ok (text_tokens beat ++ [token])
  end.

(** ** Measures *)

Definition bar_lines (bar_content : list string) : list string :=
  if 16 <? Z.of_nat (length bar_content) then
    let chunks := Py.chunks 16 bar_content in
    imap (λ i chunk,
            if bool_decide (i = (length chunks - 1)%nat)
            then Py.join " " chunk +:+ " |"
            else Py.join " " chunk +:+ " " +:+ backslash)
         chunks
  else [Py.join " " bar_content +:+ " |"].

Definition measure_lines (strings : list Z) (measure : Measure.t)
  : result (list string) :=
  let tags := header_lines (Measure.header measure) in
  match Measure.voices measure with
  | [] => Ok tags
  | voice :: _ =>
      bar_content ← for_each (beat_tokens strings) (Voice.beats voice);
      Ok (tags ++ bar_lines bar_content)
  end.

(** ** Tracks *)

Definition in_range (lo hi : Z) (prog : option Z) : bool :=
  match prog with
  | Some p => (lo <=? p) && (p <=? hi)
  | None => false
  end.

Definition is_guitar (track : Track.t) : bool :=
  let prog := Track.instrument track in
  let num_strings := Z.of_nat (length (Track.strings track)) in
  in_range 24 31 prog || (6 <=? num_strings).

Definition is_bass (track : Track.t) : bool :=
  let prog := Track.instrument track in
  let num_strings := Z.of_nat (length (Track.strings track)) in
  in_range 32 39 prog || ((4 <=? num_strings) && (num_strings <=? 5)).

(** A track passes both [continue] tests of the loop over the tracks. *)
Definition admitted (track : Track.t) : bool :=
  negb (Track.isPercussionTrack track) && (is_guitar track || is_bass track).

Definition instrument_of (track : Track.t) : string :=
  if is_bass track then "Bass" else "Guitar".

Definition track_name (track : Track.t) : string :=
  if Py.truthy_str (Track.name track) then Track.name track
  else "Track " +:+ Py.str (Track.number track).

Definition tuning_note_names : list string :=
  ["C"; "C#"; "D"; "D#"; "E"; "F"; "F#"; "G"; "G#"; "A"; "A#"; "B"].

Definition tuning_names (track : Track.t) : result (list string) :=
  let tuning_pitches := reverse (Py.sorted (Track.strings track)) in
  for_each
    (λ p, n ← Py.index tuning_note_names (p mod 12);
          Ok [n +:+ Py.str (p / 12 - 1)])
    tuning_pitches.

(** The lines from ["Track: ..."] to ["K:..."]. *)
Definition track_header (ctx : Context) (tune_index : Z) (track : Track.t)
    (names : list string) : list string :=
  let instrument := instrument_of track in
  let name := track_name track in
  ["Track: " +:+ name +:+ " (" +:+ instrument +:+ ")"]
  ++ (if Py.truthy_str (Track.description track)
      then ["Description: " +:+ Track.description track] else [])
  ++ (if Py.truthy_str (Track.comments track)
      then ["Comments: " +:+ Track.comments track] else [])
  ++ ["Tuning: " +:+ Py.join " " names]
  ++ ["ABC Notation:"]
  ++ ["X:" +:+ Py.str tune_index]
  ++ ["T:" +:+ song_title ctx]
  ++ ((λ subtitle, "T:" +:+ subtitle) <$> song_subtitles ctx)
  ++ ["C:" +:+ (if bool_decide (song_composer ctx ≠ "Unknown Composer")
                then song_composer ctx else "")]
  ++ ["A:" +:+ (if bool_decide (song_artist ctx ≠ "Unknown Artist")
                then song_artist ctx else "")]
  ++ ["Z:" +:+ (if bool_decide (song_album ctx ≠ "Unknown Album")
                then song_album ctx else "")]
  ++ ["N:" +:+ name +:+ " (" +:+ instrument +:+ ")"]
  ++ ["M:" +:+ Py.str (num ctx) +:+ "/" +:+ Py.str (den ctx)]
  ++ ["L:1/16"]
  ++ ["Q:1/4=" +:+ Py.str (ctx_tempo ctx)]
  ++ ["K:" +:+ key_text ctx].

(** Everything an admitted track appends to [output]. *)
Definition track_block (ctx : Context) (tune_index : Z) (track : Track.t)
  : result (list string) :=
  names ← tuning_names track;
  body ← for_each (measure_lines (Track.strings track)) (Track.measures track);
  Ok (track_header ctx tune_index track names ++ body ++ [""]).

(** One iteration of the loop over the tracks, on the pair of the output
    buffer and the tune index. *)
Definition process_track (ctx : Context) (st : list string * Z)
    (track : Track.t) : result (list string * Z) :=
  let '(output, tune_index) := st in
  if Track.isPercussionTrack track then Ok st
  else if negb (is_guitar track || is_bass track) then Ok st
  else
    block ← track_block ctx tune_index track;
    Ok (output ++ block, tune_index + 1).

Fixpoint process_tracks (ctx : Context) (st : list string * Z)
    (tracks : list Track.t) : result (list string * Z) :=
  match tracks with
  | [] => Ok st
  | track :: rest =>
      st' ← process_track ctx st track;
      process_tracks ctx st' rest
  end.

(** ** The transcoder *)

Definition resolve_context (song : Song.t) : result Context :=
  key_text ← resolve_key (Song.key song);
  let '(num, den) := resolve_time_signature song in
  Ok {| song_title := or_default (Song.title song) "Untitled";
        song_artist := or_default (Song.artist song) "Unknown Artist";
        song_album := or_default (Song.album song) "Unknown Album";
        song_composer := or_default (Song.composer song) "Unknown Composer";
        song_subtitles := Song.subtitles song;
        ctx_tempo := Song.tempo song;
        key_text := key_text;
        num := num;
        den := den |}.

(** The output buffer and the tune index when the loop over the tracks
    ends. *)
Definition transcode_lines (song : Song.t) : result (list string * Z) :=
  ctx ← resolve_context song;
  process_tracks ctx (preamble song ctx, 1) (Song.tracks song).

Definition process_guitar_pro (song : Song.t) : result string :=
  st ← transcode_lines song;
  Ok (Py.join newline (fst st)).

(** ** Text sent to the API

    [sanitize_for_api] works on characters outside ASCII, so its text is a
    list of Unicode code points. *)

Definition symbol_placeholder : list N :=
  N_of_ascii <$> list_ascii_of_string "[SYMBOL]".

(** The character class [[^\x00-\x7F]]. *)
Definition non_ascii (c : N) : bool := (127 <? c)%N.

(** [re.sub(r'[^\x00-\x7F]+', '[SYMBOL]', text)]: the scan from the left,
    where [in_match] tells that the character before was taken by the match
    under way (the [+] is greedy, so a match goes on as long as it can). *)
Fixpoint sub_non_ascii (in_match : bool) (text : list N) : list N :=
  match text with
  | [] => []
  | c :: rest =>
      if non_ascii c then
        if in_match then sub_non_ascii true rest
        else symbol_placeholder ++ sub_non_ascii true rest
      else c :: sub_non_ascii false rest
  end.

Definition sanitize_for_api (text : list N) : list N :=
  sub_non_ascii false text.

(** ** The page script and its session state

    Streamlit runs the script from top to bottom at each interaction, with
    the values of the widgets as inputs and [st.session_state] carried from
    one run to the next. *)

Module Session.
Record t : Type := {
  messages : list (string * string);     (* role, content *)
  abc_notation : option string;
  file_processed : bool;
  show_abc : bool
}.
End Session.

(** The four [if ... not in st.session_state] of the first run. *)
Definition initial_session : Session.t :=
  {| Session.messages := []; Session.abc_notation := None;
     Session.file_processed := false; Session.show_abc := false |}.

Definition reset_chat (st : Session.t) : Session.t :=
  {| Session.messages := [];
     Session.abc_notation := Session.abc_notation st;
     Session.file_processed := Session.file_processed st;
     Session.show_abc := Session.show_abc st |}.

Definition toggle_abc_view (st : Session.t) : Session.t :=
  {| Session.messages := Session.messages st;
     Session.abc_notation := Session.abc_notation st;
     Session.file_processed := Session.file_processed st;
     Session.show_abc := negb (Session.show_abc st) |}.

(** The uploader: no file, or a file with what [guitarpro.parse] makes of
    it ([None] when it raises). *)
Inductive Upload : Type :=
| NoFile
| File (parsed : option Song.t).

(** The answer of the API: the [delta.content] of the chunks of a stream
    that ends, or an exception at the call or in the stream. *)
Inductive Reply : Type :=
| Streamed (contents : list (option string))
| Failed.

(** The widgets of one run.  The callback of the reset button and the click
    on the view button are taken as given, also in a run where the page
    before did not show the button.

    A run does not have to reach the end of the script: every [st.*] call
    can end it with a stop or rerun request, which is no [Exception] and so
    passes the [except Exception] around the API call.  A run ended before
    the user message is appended leaves the state that a whole run with
    other widget values leaves (no prompt, no click on the view button, no
    file); [run_stopped] is the run ended between the two appends to the
    history, after the user message and before the answer. *)
Record Widgets : Type := {
  openai_api_key : string;
  uploaded_file : Upload;
  reset_clicked : bool;
  view_hide_clicked : bool;
  prompt : option string;
  reply : Reply;
  run_stopped : bool
}.

(** The block under [if openai_api_key and uploaded_file and not
    st.session_state.file_processed]: both assignments are in the [try], and
    any exception of the parser or of the transcoder leaves the state as it
    was. *)
Definition process_upload (w : Widgets) (st : Session.t) : Session.t :=
  match uploaded_file w with
  | File parsed =>
      if Py.truthy_str (openai_api_key w) && negb (Session.file_processed st)
      then
        match parsed with
        | Some song =>
            match process_guitar_pro song with
            | Ok text =>
                {| Session.messages := Session.messages st;
                   Session.abc_notation := Some text;
                   Session.file_processed := true;
                   Session.show_abc := Session.show_abc st |}
            | Raise _ => st
            end
        | None => st
        end
      else st
  | NoFile => st
  end.

(** [full_response]: the contents that are true, one after the other, or
    the apology when anything raised. *)
Definition full_response (r : Reply) : string :=
  match r with
  | Streamed contents =>
      foldl (λ full_response content,
               match content with
               | Some text =>
                   if Py.truthy_str text then full_response +:+ text
                   else full_response
               | None => full_response
               end)
            "" contents
  | Failed =>
      "I'm sorry, there was an error analyzing your music. Please try again."
  end.

Definition system_content (abc_notation : option string) : string :=
  "You are a helpful music assistant. " +:+ newline +:+ newline
  +:+ "Here is the ABC notation of the piece to analyze:" +:+ newline
  +:+ newline +:+ default "None" abc_notation +:+ newline +:+ newline
  +:+ "Analyze this notation and respond to the user's query. Please do NOT reference the syntax or the ABC notation (e.g.: references to chords like [B,,,^F,,]) in your answer, instead describe them with natural language and proper music theory terminology.".

(** The messages of the API call, made after the prompt has been appended to
    the history. *)
Definition api_messages (st : Session.t) : list (string * string) :=
  ("system", system_content (Session.abc_notation st)) :: Session.messages st.

(** [st.session_state.messages.append({"role": role, "content": content})] *)
Definition append_message (role content : string) (st : Session.t)
  : Session.t :=
  {| Session.messages := Session.messages st ++ [(role, content)];
     Session.abc_notation := Session.abc_notation st;
     Session.file_processed := Session.file_processed st;
     Session.show_abc := Session.show_abc st |}.

(** The block under [if openai_api_key and st.session_state.file_processed]:
    the user message is appended first; the answer is appended after the
    API call, when the run gets there. *)
Definition chat_turn (w : Widgets) (st : Session.t) : Session.t :=
  if Py.truthy_str (openai_api_key w) && Session.file_processed st then
    match prompt w with
    | Some text =>
        if Py.truthy_str text then
          let st := append_message "user" text st in
          if run_stopped w then st
          else append_message "assistant" (full_response (reply w)) st
        else st
    | None => st
    end
  else st.

(** One run of the script. *)
Definition script_run (st : Session.t) (w : Widgets) : Session.t :=
  let st := if reset_clicked w then reset_chat st else st in
  let st := process_upload w st in
  let st :=
    if Session.file_processed st && view_hide_clicked w
    then toggle_abc_view st else st in
  chat_turn w st.

(** A session: the runs one after the other, from the first. *)
Definition session_after (ws : list Widgets) : Session.t :=
  foldl script_run initial_session ws.

(** * Definitions of the statements

    What the specification speaks of, written from its words, to be compared
    with the embedding above. *)

(** The dotted flag of a beat's duration, false when the beat has none. *)
Definition dotted_of (duration : option Duration.t) : bool :=
  match duration with Some d => Duration.isDotted d | None => false end.

(** The same computation read with exact rational arithmetic, as the
    formula [16 / d] is read on paper. *)
Definition Q_int_of (x : Q) : Z := Z.quot (Qnum x) (Z.pos (Qden x)).

Definition duration_suffix_exact (d : Z) (dotted : bool) : string :=
  let m := if d =? 0 then 16%Q else (16 / inject_Z d)%Q in
  let m := if dotted then (m * (3 # 2))%Q else m in
  if Qeq_bool m 1 then ""
  else if negb (Qle_bool 1 m) then "/" +:+ Py.str (Q_int_of (1 / m)%Q)
  else Py.str (Q_int_of m).

Definition exact_agrees (d : Z) : bool :=
  forallb
    (λ dotted,
       bool_decide
         (duration_suffix
            (Some {| Duration.value := d; Duration.isDotted := dotted |})
          = duration_suffix_exact d dotted))
    [false; true].

(** The letter of each pitch class, the sharp-only spelling without its
    accidental. *)
Definition pitch_letters : list string :=
  ["C"; "C"; "D"; "D"; "E"; "F"; "F"; "G"; "G"; "A"; "A"; "B"].

Definition pitch_letter (p : Z) : string :=
  default "" (pitch_letters !! Z.to_nat (p mod 12)).

(** The chromatic (non-natural) pitch classes. *)
Definition chromatic (p : Z) : bool :=
  bool_decide (p mod 12 ∈ [1; 3; 6; 8; 10]).

Definition accidental (p : Z) : string := if chromatic p then "^" else "".

(** The token that the specification describes, for octave [p / 12 - 1]. *)
Definition abc_token (p : Z) : string :=
  let octave := p / 12 - 1 in
  if octave =? 4 then accidental p +:+ Py.upper (pitch_letter p)
  else if 5 <=? octave
  then accidental p +:+ Py.lower (pitch_letter p) +:+ Py.mul "'" (octave - 5)
  else accidental p +:+ Py.upper (pitch_letter p) +:+ Py.mul "," (4 - octave).

(** The table of the specification: number of pitch classes, intervals above the
    root in ascending order, suffix of the label. *)
Definition chord_shapes : list (nat * list Z * string) :=
  [(2%nat, [7], "5");
   (3%nat, [4; 7], "maj"); (3%nat, [3; 7], "min"); (3%nat, [3; 6], "dim");
   (3%nat, [4; 8], "aug"); (3%nat, [2; 7], "sus2"); (3%nat, [5; 7], "sus4");
   (4%nat, [4; 7; 10], "7"); (4%nat, [3; 7; 10], "min7");
   (4%nat, [4; 7; 11], "maj7"); (4%nat, [3; 6; 10], "min7b5");
   (4%nat, [3; 6; 9], "dim7"); (4%nat, [4; 7; 9], "6");
   (4%nat, [3; 7; 9], "min6")].

Definition chord_suffix (n : nat) (intervals : list Z) : option string :=
  snd <$>
  find (λ shape : nat * list Z * string,
          bool_decide (fst shape = (n, intervals)))
       chord_shapes.

(** The recognizer as the specification words it: the unique pitch classes, the
    lowest of them as root, the other classes' intervals from the root
    sorted, and the table. *)
Definition chord_label (pitches : list Z) : option string :=
  let pcs := remove_dups ((λ p, p mod 12) <$> pitches) in
  match pcs with
  | [] => None
  | pc :: pcs' =>
      let root := foldr Z.min pc pcs' in
      let others := filter (λ pc, pc ≠ root) pcs in
      let intervals := Py.sorted ((λ pc, (pc - root) mod 12) <$> others) in
      suffix ← chord_suffix (length pcs) intervals;
      root_name ← name_map !! root;
      Some (root_name +:+ suffix)
  end.

(** The only operation of the emitter that can raise is the lookup of a
    note's string: it raises exactly on a string number at or below minus the
    number of strings (a number from there up to 0 wraps around to a string
    counted from the end, a number beyond the strings is guarded). *)
Definition note_ok (strings : list Z) (note : Note.t) : Prop :=
  - Z.of_nat (length strings) < Note.string note.

Definition beat_ok (strings : list Z) (beat : Beat.t) : Prop :=
  Forall (note_ok strings) (Beat.notes beat).

Definition measure_ok (strings : list Z) (measure : Measure.t) : Prop :=
  match Measure.voices measure with
  | [] => True
  | voice :: _ => Forall (beat_ok strings) (Voice.beats voice)
  end.

Definition track_ok (track : Track.t) : Prop :=
  Forall (measure_ok (Track.strings track)) (Track.measures track).

(** The ["M:"] line of the resolved time signature. *)
Definition time_signature_line (song : Song.t) : string :=
  "M:" +:+ Py.str (fst (resolve_time_signature song)) +:+ "/"
  +:+ Py.str (snd (resolve_time_signature song)).

(** The number of tokens a beat adds to the bar. *)
Definition token_count (beat : Beat.t) : nat :=
  match Beat.notes beat with
  | [] => 1
  | _ => length (text_tokens beat) + 1
  end.


(** The history holds whole exchanges: a user message, then the answer. *)
Fixpoint exchanges (messages : list (string * string)) : Prop :=
  match messages with
  | [] => True
  | (role1, _) :: (role2, _) :: rest =>
      role1 = "user" ∧ role2 = "assistant" ∧ exchanges rest
  | _ => False
  end.

(** The order that the history keeps also when runs are stopped: the roles
    are user and assistant, and an answer comes only straight after a user
    message.  [after_user] tells that the message before was a user
    message. *)
Fixpoint turns_from (after_user : bool) (messages : list (string * string))
  : Prop :=
  match messages with
  | [] => True
  | (role, _) :: rest =>
      (role = "user" ∧ turns_from true rest)
      ∨ (role = "assistant" ∧ after_user = true ∧ turns_from false rest)
  end.

(** The messages that a run can add to the history by itself. *)
Definition message_of (w : Widgets) (message : string * string) : Prop :=
  (∃ text, prompt w = Some text ∧ message = ("user", text))
  ∨ message = ("assistant", full_response (reply w)).

(** The texts that the uploads of a session transcode to. *)
Definition transcoded_in (ws : list Widgets) (text : string) : Prop :=
  ∃ w song, w ∈ ws ∧ uploaded_file w = File (Some song)
            ∧ process_guitar_pro song = Ok text.

(** What a run keeps: the file is marked as processed exactly when a
    notation is stored, a stored notation is the transcoding of a file of
    the session, a history that is not empty needs a processed file, an
    answer follows a user message, and the history holds whole exchanges as
    long as no run was stopped. *)
Definition session_inv (ws : list Widgets) (st : Session.t) : Prop :=
  (Session.file_processed st = true ↔ is_Some (Session.abc_notation st))
  ∧ (∀ text, Session.abc_notation st = Some text → transcoded_in ws text)
  ∧ (Session.messages st ≠ [] → Session.file_processed st = true)
  ∧ turns_from false (Session.messages st)
  ∧ (Forall (λ w, run_stopped w = false) ws →
     exchanges (Session.messages st)).

(** A flag of a note's or a beat's effect, false without an effect. *)
Definition note_flag (flag : NoteEffect.t → bool) (note : Note.t) : bool :=
  match Note.effect note with Some e => flag e | None => false end.

Definition beat_flag (flag : BeatEffect.t → bool) (beat : Beat.t) : bool :=
  match Beat.effect beat with Some e => flag e | None => false end.

(** The order in which the note's own effects are checked. *)
Definition marker_order : list string :=
  ["b"; "ho"; "po"; "h"; "s"; "v"; "pm"; "st"; "t"; "tr"].


(** A header text that gives no tag: missing, or blank once stripped. *)
Definition blank_text (attr : option string) : Prop :=
  match attr with
  | Some text_value => Py.strip text_value = ""
  | None => True
  end.

(** The tag written for a header text that is not blank. *)
Definition text_tag (text_value : string) : string :=
  let section_text := Py.strip text_value in
  match section_type_of section_text with
  | Some section_type =>
      "{SECTION: " +:+ section_type +:+ " - " +:+ section_text +:+ "}"
  | None => "{TEXT: " +:+ section_text +:+ "}"
  end.

(** The line of the preamble that announces the key. *)
Definition key_line (key_text : string) : string :=
  if Py.endswith "m" key_text
  then "Key: " +:+ Py.drop_last key_text +:+ " minor"
  else "Key: " +:+ key_text +:+ " major".

(** The name of an open string in the tuning line: pitch class and octave. *)
Definition tuning_name (p : Z) : string :=
  default "" (tuning_note_names !! Z.to_nat (p mod 12)) +:+ Py.str (p / 12 - 1).

(** What stands between the brackets of a chord token: the label when the
    chord is recognized, the pitch tokens in ascending order otherwise. *)
Definition chord_body (pitches : list Z) : string :=
  match chord_label pitches with
  | Some label => label
  | None => Py.join "" (abc_token <$> Py.sorted pitches)
  end.

(** A reader of pitch tokens: the optional ["^"], the letter, and the marks
    counted after it, commas below an upper-case letter and apostrophes above
    a lower-case one. *)
Definition letter_class (c : ascii) : option Z :=
  let u := Py.upper_ascii c in
  if Ascii.eqb u "C" then Some 0
  else if Ascii.eqb u "D" then Some 2
  else if Ascii.eqb u "E" then Some 4
  else if Ascii.eqb u "F" then Some 5
  else if Ascii.eqb u "G" then Some 7
  else if Ascii.eqb u "A" then Some 9
  else if Ascii.eqb u "B" then Some 11
  else None.

Fixpoint count_char (c : ascii) (s : string) : Z :=
  match s with
  | EmptyString => 0
  | String a s' => (if Ascii.eqb a c then 1 else 0) + count_char c s'
  end.

Definition read_letter (sharp : Z) (s : string) : option Z :=
  match s with
  | String c marks =>
      pc ← letter_class c;
      let octave :=
        if Ascii.eqb (Py.upper_ascii c) c then 4 - count_char "," marks
        else 5 + count_char "'" marks in
      Some (12 * (octave + 1) + pc + sharp)
  | EmptyString => None
  end.

Definition abc_to_midi (token : string) : option Z :=
  match token with
  | String c rest =>
      if Ascii.eqb c "^" then read_letter 1 rest else read_letter 0 token
  | EmptyString => None
  end.

(** The conditions on string numbers are decidable. *)
Global Instance note_ok_dec strings note : Decision (note_ok strings note).
Proof. unfold note_ok. apply _. Defined.

Global Instance beat_ok_dec strings beat : Decision (beat_ok strings beat).
Proof. unfold beat_ok. apply _. Defined.

Global Instance measure_ok_dec strings measure :
  Decision (measure_ok strings measure).
Proof. unfold measure_ok. destruct (Measure.voices measure); apply _. Defined.

Global Instance track_ok_dec track : Decision (track_ok track).
Proof. unfold track_ok. apply _. Defined.





(** * Sample songs, tracks and beats *)

Definition two_tracks_admitted : list Track.t :=
  [ {| Track.name := "Drums"; Track.number := 1;
       Track.isPercussionTrack := true; Track.instrument := Some 0;
       Track.strings := [40; 45; 50; 55; 59; 64]; Track.measures := [];
       Track.description := ""; Track.comments := "" |};
    {| Track.name := "Lead"; Track.number := 2;
       Track.isPercussionTrack := false; Track.instrument := Some 28;
       Track.strings := []; Track.measures := [];
       Track.description := ""; Track.comments := "" |};
    {| Track.name := "Piano"; Track.number := 3;
       Track.isPercussionTrack := false; Track.instrument := Some 0;
       Track.strings := []; Track.measures := [];
       Track.description := ""; Track.comments := "" |};
    {| Track.name := "Low"; Track.number := 4;
       Track.isPercussionTrack := false; Track.instrument := Some 90;
       Track.strings := [43; 38; 33; 28; 23]; Track.measures := [];
       Track.description := ""; Track.comments := "" |} ].

Definition sample_context : Context :=
  {| song_title := "Untitled"; song_artist := "Unknown Artist";
     song_album := "Unknown Album"; song_composer := "Unknown Composer";
     song_subtitles := []; ctx_tempo := 120; key_text := "C";
     num := 4; den := 4 |}.

(** A steel-guitar program on a four-string track. *)
Definition guitar_program_four_strings : Track.t :=
  {| Track.name := "Tenor"; Track.number := 1;
     Track.isPercussionTrack := false; Track.instrument := Some 25;
     Track.strings := [64; 59; 55; 50]; Track.measures := [];
     Track.description := ""; Track.comments := "" |}.

Definition plain_header (numerator value : Z) : MeasureHeader.t :=
  {| MeasureHeader.timeSignature :=
       {| TimeSignature.numerator := numerator;
          TimeSignature.denominator :=
            {| Duration.value := value; Duration.isDotted := false |} |};
     MeasureHeader.marker := None; MeasureHeader.text := None;
     MeasureHeader.direction := None; MeasureHeader.annotation := None;
     MeasureHeader.comment := None; MeasureHeader.repeatAlternative := 0;
     MeasureHeader.repeat := None |}.

Definition bass_in_three_four : Track.t :=
  {| Track.name := "Bass"; Track.number := 2;
     Track.isPercussionTrack := false; Track.instrument := Some 33;
     Track.strings := [43; 38; 33; 28];
     Track.measures :=
       [ {| Measure.header := plain_header 3 4; Measure.voices := [] |} ];
     Track.description := ""; Track.comments := "" |}.

(** A guitar in 6/8 followed by a bass whose own measures are in 3/4. *)
Definition two_meters : Song.t :=
  {| Song.tempo := 90; Song.key := KeyPair 1 0;
     Song.tracks :=
       [ {| Track.name := "Guitar"; Track.number := 1;
            Track.isPercussionTrack := false; Track.instrument := Some 25;
            Track.strings := [64; 59; 55; 50; 45; 40];
            Track.measures :=
              [ {| Measure.header := plain_header 6 8; Measure.voices := [] |} ];
            Track.description := ""; Track.comments := "" |};
         bass_in_three_four ];
     Song.title := Some "Two meters"; Song.artist := None; Song.album := None;
     Song.composer := None; Song.copyright := ""; Song.instructions := "";
     Song.notice := ""; Song.subtitles := [] |}.

Definition six_strings : list Z := [64; 59; 55; 50; 45; 40].

Definition quarter : option Duration.t :=
  Some {| Duration.value := 4; Duration.isDotted := false |}.

Definition plain_note (string value : Z) : Note.t :=
  {| Note.string := string; Note.value := value; Note.effect := None |}.

(** Two notes on strings 7 and 8 of a six-string track, as one beat. *)
Definition beat_beyond_strings : Beat.t :=
  {| Beat.duration := quarter;
     Beat.notes := [plain_note 7 3; plain_note 8 5];
     Beat.text := None; Beat.effect := None |}.

(** A beat with one note and a text of one space. *)
Definition beat_blank_text : Beat.t :=
  {| Beat.duration := quarter; Beat.notes := [plain_note 1 0];
     Beat.text := Some " "; Beat.effect := None |}.

Definition sixteenth : option Duration.t :=
  Some {| Duration.value := 16; Duration.isDotted := false |}.

Definition plain_beat (text : option string) : Beat.t :=
  {| Beat.duration := sixteenth; Beat.notes := [plain_note 1 0];
     Beat.text := text; Beat.effect := None |}.

(** Sixteen sixteenth notes, the first of them with the text ["Am"]. *)
Definition annotated_measure : Measure.t :=
  {| Measure.header := plain_header 4 4;
     Measure.voices :=
       [ {| Voice.beats := plain_beat (Some "Am") :: replicate 15 (plain_beat None) |} ] |}.

(** A measure of seventeen sixteenth notes, the third with a text, followed
    by a second voice that is never read. *)
Definition crowded_measure : Measure.t :=
  {| Measure.header := plain_header 4 4;
     Measure.voices :=
       [ {| Voice.beats :=
              [plain_beat None; plain_beat None; plain_beat (Some "let ring")]
              ++ replicate 14 (plain_beat None) |};
         {| Voice.beats := [beat_beyond_strings] |} ] |}.

(** Runs of the page: an upload, and a question with its answer, stopped
    before the answer or not. *)
Definition upload_run (song : Song.t) : Widgets :=
  {| openai_api_key := "k"; uploaded_file := File (Some song);
     reset_clicked := false; view_hide_clicked := false;
     prompt := None; reply := Failed; run_stopped := false |}.

Definition question_run (text : string) (answer : Reply) (stopped : bool)
  : Widgets :=
  {| openai_api_key := "k"; uploaded_file := NoFile;
     reset_clicked := false; view_hide_clicked := false;
     prompt := Some text; reply := answer; run_stopped := stopped |}.

Definition empty_song : Song.t :=
  {| Song.tempo := 60; Song.key := KeyAbsent; Song.tracks := [];
     Song.title := None; Song.artist := None; Song.album := None;
     Song.composer := None; Song.copyright := ""; Song.instructions := "";
     Song.notice := ""; Song.subtitles := [] |}.



(** * Properties *)

(** ** Shared facts about the primitives *)

Lemma str_nonempty (n : Z) : Py.str n ≠ "".
Proof.
  unfold Py.str, NilZero.string_of_int.
  destruct n as [|p|p]; cbn.
  - discriminate.
  - unfold NilZero.string_of_uint. destruct (Pos.to_uint p); discriminate.
  - discriminate.
Qed.

Lemma index_in_range {A : Type} (l : list A) (i : Z) :
  0 ≤ i < Z.of_nat (length l) →
  ∃ x, l !! Z.to_nat i = Some x ∧ Py.index l i = Ok x.
Proof.
  intros Hi. unfold Py.index.
  destruct (Z.ltb_spec i 0) as [?|_]; [lia|].
  destruct (Z.leb_spec 0 i) as [_|?]; [|lia].
  destruct (Z.ltb_spec i (Z.of_nat (length l))) as [_|?]; [|lia].
  cbn. destruct (lookup_lt_is_Some_2 l (Z.to_nat i)) as [x Hx]; [lia|].
  exists x. by rewrite Hx.
Qed.

(** ** Shared facts about the beats *)

Lemma beat_tokens_cases (strings : list Z) (beat : Beat.t)
    (tokens : list string) :
  beat_tokens strings beat = Ok tokens →
  (Beat.notes beat = [] ∧ tokens = [rest_token beat])
  ∨ (∃ note token,
       Beat.notes beat = [note]
       ∧ note_token strings note beat = Ok token
       ∧ tokens = text_tokens beat ++ [token])
  ∨ (∃ token,
       (2 ≤ length (Beat.notes beat))%nat
       ∧ chord_token strings beat = Ok token
       ∧ tokens = text_tokens beat ++ [token]).
Proof.
  unfold beat_tokens.
  destruct (Beat.notes beat) as [|note [|note' notes]] eqn:E.
  - intros [= <-]. by left.
  - cbn [length Z.of_nat Z.ltb Z.compare].
    destruct (note_token strings note beat) as [token|] eqn:Ht; [|done].
    intros [= <-]. right; left. by exists note, token.
  - replace (1 <? Z.of_nat (length (note :: note' :: notes))) with true
      by (symmetry; apply Z.ltb_lt; cbn [length]; lia).
    destruct (chord_token strings beat) as [token|] eqn:Ht; [|done].
    intros [= <-]. right; right. exists token. cbn [length].
    split; [lia|done].
Qed.

Lemma note_token_suffix (strings : list Z) (note : Note.t) (beat : Beat.t)
    (token : string) :
  note_token strings note beat = Ok token →
  ∃ repr, token = repr +:+ duration_suffix (Beat.duration beat).
Proof.
  unfold note_token.
  destruct (note_pitch strings note) as [pitch|]; [|done]. cbn.
  destruct (midi_to_abc pitch) as [note_repr|]; [|done]. cbn.
  intros [= <-]. by eexists.
Qed.

Lemma chord_token_suffix (strings : list Z) (beat : Beat.t) (token : string) :
  chord_token strings beat = Ok token →
  ∃ repr, token = repr +:+ duration_suffix (Beat.duration beat).
Proof.
  unfold chord_token.
  destruct (chord_pitches strings (Beat.notes beat)) as [pitches|]; [|done].
  cbn. destruct (identify_chord pitches) as [chord_label|]; [|done]. cbn.
  match goal with
  | |- context [mbind _ ?m] => destruct m as [chord_repr|]; [|done]
  end.
  cbn. intros [= <-]. by eexists.
Qed.

(** ** C1: duration suffix *)

Lemma SFcompare_antisym (x y : spec_float) :
  SFcompare y x = CompOpp <$> SFcompare x y.
Proof.
  destruct x as [[]|[]| |[] mx ex], y as [[]|[]| |[] my ey]; try reflexivity;
    cbn; rewrite (Z.compare_antisym ey ex);
    destruct (ey ?= ex); cbn; try reflexivity;
    by rewrite (Pos.compare_cont_antisym mx my Eq), ?CompOpp_involutive.
Qed.

Lemma ltb_flip (x y : spec_float) :
  Binary64.ltb y x = true → SFcompare x y = Some Gt.
Proof.
  unfold Binary64.ltb, SFltb. rewrite (SFcompare_antisym x y).
  by destruct (SFcompare x y) as [[]|].
Qed.

Lemma forallb_range (P : Z → bool) (lo : Z) (n : nat) :
  forallb P ((λ i, lo + Z.of_nat i) <$> seq 0 n) = true →
  ∀ d, lo ≤ d < lo + Z.of_nat n → P d = true.
Proof.
  intros Hall d Hd. rewrite forallb_forall in Hall. apply Hall.
  apply list_elem_of_In, list_elem_of_fmap. exists (Z.to_nat (d - lo)).
  split; [lia|]. apply list_elem_of_In, in_seq. lia.
Qed.

(** Binary64 rounding does not show on any duration code of absolute value
    below 936: there the float computation and the exact one print the same
    suffix.  (At 936 they part.) *)
Lemma duration_suffix_exact_agrees (d : Z) (dotted : bool) :
  -935 ≤ d ≤ 935 →
  duration_suffix (Some {| Duration.value := d; Duration.isDotted := dotted |})
  = duration_suffix_exact d dotted.
Proof.
  intros Hd.
  assert (exact_agrees d = true) as Hag.
  { apply (forallb_range exact_agrees (-935) 1871); [by vm_compute|lia]. }
  unfold exact_agrees in Hag. cbn in Hag.
  apply andb_prop in Hag as [Hf Ht]. apply andb_prop in Ht as [Ht _].
  apply bool_decide_eq_true in Hf, Ht. by destruct dotted.
Qed.

(** C1.  The multiplier is [16 / d] ([16] when [d = 0]), times [1.5] when the
    beat is dotted; the suffix is empty exactly when the multiplier equals 1,
    is ["/"] and the truncation of [1 / m] when [m < 1], and is the
    truncation of [m] when [m > 1]; the quarter gives ["4"], the sixteenth no
    suffix, the dotted eighth ["3"], and the dotted sixteenth, whose
    multiplier is [1.5], the truncated ["1"]; and whatever a beat writes, a
    rest, a note or a chord, its token ends with the suffix of the beat's
    duration. *)
Theorem C1_duration_suffix :
  (∀ duration : option Duration.t,
     let d := duration_code duration in
     let m := length_multiplier duration in
     let one := Binary64.of_int 1 in
     m = (let m0 := if d =? 0 then Binary64.of_int 16
                    else Binary64.div (Binary64.of_int 16) (Binary64.of_int d) in
          if dotted_of duration then Binary64.mul m0 Binary64.one_and_half
          else m0)
     ∧ (duration_suffix duration = "" ↔ Binary64.eqb m one = true)
     ∧ (Binary64.ltb m one = true →
        duration_suffix duration
        = "/" +:+ Py.str (Binary64.int_of (Binary64.div one m)))
     ∧ (Binary64.ltb one m = true →
        duration_suffix duration = Py.str (Binary64.int_of m)))
  ∧ duration_suffix (Some {| Duration.value := 4; Duration.isDotted := false |})
    = "4"
  ∧ duration_suffix (Some {| Duration.value := 16; Duration.isDotted := false |})
    = ""
  ∧ duration_suffix (Some {| Duration.value := 8; Duration.isDotted := true |})
    = "3"
  ∧ length_multiplier
      (Some {| Duration.value := 16; Duration.isDotted := true |})
    = Binary64.one_and_half
  ∧ duration_suffix (Some {| Duration.value := 16; Duration.isDotted := true |})
    = "1"
  ∧ duration_suffix (Some {| Duration.value := 0; Duration.isDotted := false |})
    = "16"
  ∧ (∀ strings beat tokens,
       beat_tokens strings beat = Ok tokens →
       ∃ annotation repr,
         tokens = annotation ++ [repr +:+ duration_suffix (Beat.duration beat)]).
Proof.
  split; [|do 6 (split; [by vm_compute|])].
  2:{ intros strings beat tokens Ht.
      destruct (beat_tokens_cases _ _ _ Ht)
        as [[_ ->]|[(note & token & _ & Hn & ->)|(token & _ & Hc & ->)]].
      - by exists [], "z".
      - destruct (note_token_suffix _ _ _ _ Hn) as [repr ->]. by eexists _, _.
      - destruct (chord_token_suffix _ _ _ Hc) as [repr ->]. by eexists _, _. }
  intros duration d m one. split; [by destruct duration as [[]|]|].
  unfold duration_suffix. fold m one. unfold Binary64.eqb, Binary64.ltb, SFeqb, SFltb.
  split; [|split].
  - destruct (SFcompare m one) as [[]|]; split; try done;
      intros Hs; try (by apply str_nonempty in Hs).
  - destruct (SFcompare m one) as [[]|]; done.
  - intros Hlt. fold (SFltb one m) in Hlt. apply ltb_flip in Hlt.
    by rewrite Hlt.
Qed.

(** The theorem on a dotted thirty-second, whose multiplier 0.75 is below 1,
    and on a half note, whose multiplier is 8. *)
Lemma C1_duration_suffix_witness :
  duration_suffix (Some {| Duration.value := 32; Duration.isDotted := true |})
  = "/1"
  ∧ duration_suffix (Some {| Duration.value := 2; Duration.isDotted := false |})
    = "8".
Proof.
  destruct C1_duration_suffix as (Hall & _).
  split.
  - destruct (Hall (Some {| Duration.value := 32; Duration.isDotted := true |}))
      as (_ & _ & Hlt & _).
    apply Hlt. reflexivity.
  - destruct (Hall (Some {| Duration.value := 2; Duration.isDotted := false |}))
      as (_ & _ & _ & Hgt).
    apply Hgt. reflexivity.
Defined.

(** ** C3: pitch encoding *)

Lemma pitch_class_cases (p : Z) :
  p mod 12 ∈ [0; 1; 2; 3; 4; 5; 6; 7; 8; 9; 10; 11].
Proof.
  pose proof (Z.mod_pos_bound p 12 eq_refl) as Hb.
  assert (∃ n : nat, p mod 12 = Z.of_nat n ∧ (n < 12)%nat) as (n & -> & Hn).
  { exists (Z.to_nat (p mod 12)). lia. }
  clear Hb. do 12 (destruct n as [|n]; [set_solver|]). lia.
Qed.

Lemma midi_to_abc_token (p : Z) : midi_to_abc p = Ok (abc_token p).
Proof.
  unfold midi_to_abc, abc_token, accidental, chromatic, pitch_letter.
  generalize (p / 12 - 1). intros octave. cbv zeta. change (4 + 1) with 5.
  pose proof (pitch_class_cases p) as Hpc.
  assert (octave = 4 ∨ octave = 5 ∨ 5 < octave ∨ octave < 4)
    as [->|[->|[Ho|Ho]]] by lia.
  - repeat (apply elem_of_cons in Hpc as [->|Hpc]);
      [..|by apply elem_of_nil in Hpc]; reflexivity.
  - repeat (apply elem_of_cons in Hpc as [->|Hpc]);
      [..|by apply elem_of_nil in Hpc]; reflexivity.
  - destruct (Z.eqb_spec octave 4), (Z.leb_spec 5 octave),
      (Z.geb_spec octave 4), (Z.gtb_spec octave 5); try lia.
    repeat (apply elem_of_cons in Hpc as [->|Hpc]);
      [..|by apply elem_of_nil in Hpc]; reflexivity.
  - destruct (Z.eqb_spec octave 4), (Z.leb_spec 5 octave),
      (Z.geb_spec octave 4); try lia.
    repeat (apply elem_of_cons in Hpc as [->|Hpc]);
      [..|by apply elem_of_nil in Hpc]; reflexivity.
Qed.

(** C3.  For every integer pitch the encoder returns, without failing, the
    name found at [p mod 12] in the sharp-only table, that is the letter with
    a leading ["^"] exactly on the chromatic classes; in octave
    [p / 12 - 1 = 4] the letter is upper case and bare, from octave 5 up it
    is lower case with one apostrophe per octave beyond 5, and below octave 4
    it is upper case with one comma per octave below 4. *)
Theorem C3_midi_to_abc (p : Z) :
  let octave := p / 12 - 1 in
  let letter := pitch_letter p in
  note_names !! Z.to_nat (p mod 12) = Some (accidental p +:+ letter)
  ∧ (accidental p = "^" ↔ p mod 12 ∈ [1; 3; 6; 8; 10])
  ∧ (accidental p = "" ↔ p mod 12 ∈ [0; 2; 4; 5; 7; 9; 11])
  ∧ letter ∈ ["C"; "D"; "E"; "F"; "G"; "A"; "B"]
  ∧ (∃ token, midi_to_abc p = Ok token)
  ∧ (octave = 4 → midi_to_abc p = Ok (accidental p +:+ Py.upper letter))
  ∧ (5 ≤ octave →
     midi_to_abc p
     = Ok (accidental p +:+ Py.lower letter +:+ Py.mul "'" (octave - 5)))
  ∧ (octave < 4 →
     midi_to_abc p
     = Ok (accidental p +:+ Py.upper letter +:+ Py.mul "," (4 - octave))).
Proof.
  intros octave letter.
  assert (note_names !! Z.to_nat (p mod 12) = Some (accidental p +:+ letter)
          ∧ (accidental p = "^" ↔ p mod 12 ∈ [1; 3; 6; 8; 10])
          ∧ (accidental p = "" ↔ p mod 12 ∈ [0; 2; 4; 5; 7; 9; 11])
          ∧ letter ∈ ["C"; "D"; "E"; "F"; "G"; "A"; "B"]) as (H1 & H2 & H3 & H4).
  { unfold letter, accidental, chromatic, pitch_letter.
    pose proof (pitch_class_cases p) as Hpc.
    repeat (apply elem_of_cons in Hpc as [->|Hpc]);
      [..|by apply elem_of_nil in Hpc]; cbn;
      (split; [reflexivity|]); (split; [|split]);
      first [ by split; [|intros _]; [|set_solver]
            | by split; [intros _; set_solver|]
            | split; [discriminate|]; intros Hin;
              by repeat (apply elem_of_cons in Hin as [?|Hin]; [done|]);
                 apply elem_of_nil in Hin
            | set_solver ]. }
  rewrite midi_to_abc_token. unfold abc_token. fold octave letter.
  repeat split; try tauto; eauto.
  - intros ->. reflexivity.
  - intros Ho. destruct (Z.eqb_spec octave 4); [lia|].
    by destruct (Z.leb_spec 5 octave); [|lia].
  - intros Ho. destruct (Z.eqb_spec octave 4); [lia|].
    by destruct (Z.leb_spec 5 octave); [lia|].
Qed.

(** The theorem at a pitch of each of the three octave ranges. *)
Lemma C3_midi_to_abc_witness :
  midi_to_abc 61 = Ok "^C" ∧ midi_to_abc 85 = Ok "^c'"
  ∧ midi_to_abc 40 = Ok "E,,".
Proof.
  split; [|split].
  - destruct (C3_midi_to_abc 61) as (_ & _ & _ & _ & _ & H & _ & _).
    apply H. reflexivity.
  - destruct (C3_midi_to_abc 85) as (_ & _ & _ & _ & _ & _ & H & _).
    apply H. vm_compute. discriminate.
  - destruct (C3_midi_to_abc 40) as (_ & _ & _ & _ & _ & _ & _ & H).
    apply H. reflexivity.
Defined.

(** ** C2: chord recognition *)

Lemma sorted_perm (l k : list Z) : l ≡ₚ k → Py.sorted l = Py.sorted k.
Proof.
  intros Hp. unfold Py.sorted.
  apply (StronglySorted_unique Z.le); [apply StronglySorted_merge_sort; apply _..|].
  by rewrite !merge_sort_Permutation.
Qed.

Lemma sorted_cons_least (x : Z) (l : list Z) :
  Forall (Z.le x) l → Py.sorted (x :: l) = x :: Py.sorted l.
Proof.
  intros Hx. unfold Py.sorted.
  apply (StronglySorted_unique Z.le).
  - apply StronglySorted_merge_sort; apply _.
  - constructor; [apply StronglySorted_merge_sort; apply _|].
    by rewrite merge_sort_Permutation.
  - by rewrite !merge_sort_Permutation.
Qed.

Lemma pitch_classes_remove_dups (pitches : list Z) :
  pitch_classes pitches
  = Py.sorted (remove_dups ((λ p, p mod 12) <$> pitches)).
Proof.
  unfold pitch_classes. apply sorted_perm, NoDup_Permutation.
  - apply NoDup_elements.
  - apply NoDup_remove_dups.
  - intros x. by rewrite elem_of_elements, elem_of_list_to_set,
      elem_of_remove_dups.
Qed.

Lemma foldr_min_spec (x : Z) (l : list Z) :
  foldr Z.min x l ∈ x :: l ∧ Forall (Z.le (foldr Z.min x l)) (x :: l).
Proof.
  induction l as [|y l [IHin IHle]]; cbn.
  - split; [left|by repeat constructor].
  - apply Forall_cons in IHle as [Hx Hl]. split.
    + destruct (Z.min_spec y (foldr Z.min x l)) as [[_ ->]|[_ ->]].
      * right; left.
      * apply elem_of_cons in IHin as [->|?]; [left|by do 2 right].
    + repeat constructor; [lia..|].
      eapply Forall_impl; [done|]. intros z Hz. cbn in Hz. lia.
Qed.

Lemma filter_Forall {A : Type} (P : A → Prop) `{∀ x, Decision (P x)}
    (l : list A) :
  Forall P l → filter P l = l.
Proof.
  induction 1 as [|x l Hx _ IH]; [done|].
  by rewrite filter_cons_True, IH.
Qed.

(** The sorted list of a duplicate-free list starts with its least element,
    followed by the others. *)
Lemma sorted_head (pc : Z) (pcs' : list Z) :
  NoDup (pc :: pcs') →
  let root := foldr Z.min pc pcs' in
  ∃ rest, Py.sorted (pc :: pcs') = root :: rest
          ∧ rest ≡ₚ filter (λ pc, pc ≠ root) (pc :: pcs')
          ∧ length (pc :: pcs') = S (length rest).
Proof.
  intros Hnd root.
  assert (Py.sorted (pc :: pcs') ≡ₚ pc :: pcs') as Hp
    by apply merge_sort_Permutation.
  assert (StronglySorted Z.le (Py.sorted (pc :: pcs'))) as Hs
    by (apply StronglySorted_merge_sort; apply _).
  destruct (Py.sorted (pc :: pcs')) as [|r rest] eqn:E.
  { by apply Permutation_nil_cons in Hp. }
  apply StronglySorted_inv in Hs as [_ Hr].
  destruct (foldr_min_spec pc pcs') as [Hin Hle]. fold root in Hin, Hle.
  assert (r = root) as ->.
  { rewrite <-Hp in Hin, Hle. apply Forall_cons in Hle as [Hle _].
    apply elem_of_cons in Hin as [?|Hin]; [done|].
    rewrite Forall_forall in Hr. specialize (Hr _ Hin). lia. }
  exists rest. split; [done|]. split.
  - rewrite <-Hp. rewrite filter_cons_False by tauto.
    rewrite filter_Forall; [done|].
    rewrite <-Hp in Hnd. apply NoDup_cons in Hnd as [Hnin _].
    apply Forall_forall. by intros y Hy ->.
  - by rewrite <-Hp.
Qed.

Lemma name_map_lookup (r : Z) : 0 ≤ r < 12 → is_Some (name_map !! r).
Proof.
  intros Hr. replace r with (r mod 12) by (apply Z.mod_small; lia).
  pose proof (pitch_class_cases r) as Hpc.
  repeat (apply elem_of_cons in Hpc as [->|Hpc]);
    [..|by apply elem_of_nil in Hpc]; by eexists.
Qed.

Lemma label_of_intervals_table (intervals : list Z) (root_name : string) :
  label_of_intervals (0 :: intervals) root_name
  = Ok (suffix ← chord_suffix (S (length intervals)) intervals;
        Some (root_name +:+ suffix)).
Proof.
  unfold label_of_intervals, chord_suffix, chord_shapes, triad_suffix,
    tetrad_suffix.
  destruct intervals as [|a [|b [|c [|d intervals]]]]; cbn.
  - reflexivity.
  - repeat (case_bool_decide; simplify_eq/=; try done).
    by destruct (Z.eqb_spec a 7) as [->|?].
  - repeat (case_bool_decide; simplify_eq/=; try done).
  - repeat (case_bool_decide; simplify_eq/=; try done).
  - repeat (case_bool_decide; simplify_eq/=; try done).
Qed.

Lemma identify_chord_label (pitches : list Z) :
  identify_chord pitches = Ok (chord_label pitches).
Proof.
  unfold identify_chord, chord_label. rewrite pitch_classes_remove_dups.
  pose proof (NoDup_remove_dups ((λ p, p mod 12) <$> pitches)) as Hnd.
  assert (Forall (λ pc, 0 ≤ pc < 12)
            (remove_dups ((λ p, p mod 12) <$> pitches))) as Hrange.
  { apply Forall_forall. intros pc Hpc.
    apply elem_of_remove_dups, list_elem_of_fmap in Hpc as (p & -> & _).
    by apply Z.mod_pos_bound. }
  destruct (remove_dups _) as [|pc pcs'] eqn:E; [done|].
  destruct (sorted_head pc pcs' Hnd) as (rest & Hs & Hrest & Hlen).
  rewrite Hs. set (root := foldr Z.min pc pcs') in *.
  assert (0 ≤ root < 12) as Hroot.
  { rewrite Forall_forall in Hrange. apply Hrange.
    apply (foldr_min_spec pc pcs'). }
  destruct (name_map_lookup root Hroot) as [root_name Hname].
  unfold Py.getitem. rewrite Hname. cbn [mbind result_bind].
  rewrite fmap_cons, Z.sub_diag, Z.mod_0_l by done.
  rewrite sorted_cons_least.
  2:{ apply Forall_fmap, Forall_true. intros x. cbn.
      by apply Z.mod_pos_bound. }
  rewrite label_of_intervals_table.
  rewrite <-(sorted_perm _ _ (fmap_Permutation _ _ _ Hrest)).
  assert (length (Py.sorted ((λ pc0, (pc0 - root) mod 12) <$> rest))
          = length rest) as ->.
  { rewrite <-(length_fmap (λ pc0, (pc0 - root) mod 12) rest).
    apply Permutation_length, merge_sort_Permutation. }
  by rewrite Hlen.
Qed.

(** C2.  On every list of pitches the recognizer returns the label that the
    table gives for the unique pitch classes, with the lowest class as root
    and the other classes' intervals from it sorted: the root and ["5"] for
    [{7}] on two classes, the six triads on three, the seven tetrads on
    four, and no label otherwise; C-E-G gives ["Cmaj"], C-Eb-G ["Cmin"], C-G
    ["C5"], and C-Db-G none. *)
Theorem C2_identify_chord :
  (∀ pitches : list Z, identify_chord pitches = Ok (chord_label pitches))
  ∧ (∀ n intervals suffix,
       chord_suffix n intervals = Some suffix ↔
       (n, intervals, suffix) ∈
         [(2%nat, [7], "5");
          (3%nat, [4; 7], "maj"); (3%nat, [3; 7], "min");
          (3%nat, [3; 6], "dim"); (3%nat, [4; 8], "aug");
          (3%nat, [2; 7], "sus2"); (3%nat, [5; 7], "sus4");
          (4%nat, [4; 7; 10], "7"); (4%nat, [3; 7; 10], "min7");
          (4%nat, [4; 7; 11], "maj7"); (4%nat, [3; 6; 10], "min7b5");
          (4%nat, [3; 6; 9], "dim7"); (4%nat, [4; 7; 9], "6");
          (4%nat, [3; 7; 9], "min6")])
  ∧ identify_chord [60; 64; 67] = Ok (Some "Cmaj")
  ∧ identify_chord [60; 63; 67] = Ok (Some "Cmin")
  ∧ identify_chord [60; 67] = Ok (Some "C5")
  ∧ identify_chord [60; 61; 67] = Ok None.
Proof.
  split; [exact identify_chord_label|]. split; [|by vm_compute].
  intros n intervals suffix. unfold chord_suffix, chord_shapes. cbn.
  split.
  - repeat (case_bool_decide; simplify_eq/=;
            [intros [= <-]; set_solver|]).
    done.
  - intros Hin.
    repeat (apply elem_of_cons in Hin as [[= -> -> ->]|Hin]; [done|]).
    by apply elem_of_nil in Hin.
Qed.

(** ** C4: key resolution *)

Lemma prefix_first (c : ascii) (p s : string) :
  String.prefix (String c p) s = true →
  String.prefix (String c EmptyString) s = true.
Proof.
  destruct s as [|b s]; [done|]. simpl.
  destruct (ascii_dec c b); [by destruct s|done].
Qed.

Lemma contains_cons (p : string) (b : ascii) (s : string) :
  Py.contains p (String b s)
  = String.prefix p (String b s) || Py.contains p s.
Proof. reflexivity. Qed.

Lemma contains_first (c : ascii) (p s : string) :
  Py.contains (String c p) s = true →
  Py.contains (String c EmptyString) s = true.
Proof.
  induction s as [|b s IH]; [done|].
  rewrite !contains_cons, !orb_true_iff. intros [Hp|Hs].
  - left. by apply (prefix_first c p).
  - right. by apply IH.
Qed.

(** No key signature gives ["C"]. *)
Lemma resolve_key_absent : resolve_key KeyAbsent = Ok "C".
Proof. reflexivity. Qed.

(** A numeric pair, or an object with such a [value], is looked up in the
    minor table when the flag is true and in the major table otherwise; the
    tables cover the counts from -7 to 7 and nothing else. *)
Lemma resolve_key_numeric (sharps is_minor : Z) (name : string) :
  resolve_key (KeyObject (Some (sharps, is_minor)) name)
  = resolve_key (KeyPair sharps is_minor)
  ∧ resolve_key (KeyPair sharps is_minor)
    = Py.getitem (if Py.truthy_int is_minor then minor_map else major_map)
        sharps
  ∧ (-7 ≤ sharps ≤ 7 ↔ ∃ key, resolve_key (KeyPair sharps is_minor) = Ok key)
  ∧ resolve_key (KeyPair 0 0) = Ok "C"
  ∧ resolve_key (KeyPair 3 0) = Ok "A"
  ∧ resolve_key (KeyPair 2 1) = Ok "Bm".
Proof.
  split; [done|]. split; [by cbn; destruct (Py.truthy_int is_minor)|].
  split; [|done].
  assert (-7 ≤ sharps ≤ 7 ↔
          sharps ∈ [-7; -6; -5; -4; -3; -2; -1; 0; 1; 2; 3; 4; 5; 6; 7])
    as ->.
  { split.
    - intros Hs.
      assert (∃ n : nat, sharps = -7 + Z.of_nat n ∧ (n < 15)%nat)
        as (n & -> & Hn) by (exists (Z.to_nat (sharps + 7)); lia).
      clear Hs. do 15 (destruct n as [|n]; [set_solver|]). lia.
    - intros Hin.
      repeat (apply elem_of_cons in Hin as [->|Hin]; [lia|]).
      by apply elem_of_nil in Hin. }
  cbn. split.
  - intros Hin.
    repeat (apply elem_of_cons in Hin as [->|Hin];
            [destruct (Py.truthy_int is_minor); by eexists|]).
    by apply elem_of_nil in Hin.
  - intros [key Hkey].
    assert (is_Some (major_map !! sharps) ∨ is_Some (minor_map !! sharps))
      as Hdom.
    { unfold Py.getitem in Hkey.
      destruct (Py.truthy_int is_minor);
        [right|left]; by destruct (_ !! sharps). }
    rewrite <-!elem_of_dom in Hdom.
    assert (dom major_map = list_to_set
              [-7; -6; -5; -4; -3; -2; -1; 0; 1; 2; 3; 4; 5; 6; 7] :> gset Z)
      as Hmaj by (by vm_compute).
    assert (dom minor_map = list_to_set
              [-7; -6; -5; -4; -3; -2; -1; 0; 1; 2; 3; 4; 5; 6; 7] :> gset Z)
      as Hmin by (by vm_compute).
    rewrite Hmaj, Hmin, !elem_of_list_to_set in Hdom. tauto.
Qed.

(** A symbolic name: the minor flag follows the substring ["Minor"], the key
    is the first name of the list found in the text, and ["C"] when none
    is. *)
Lemma resolve_key_name (name : string) :
  (minor_from_name name = 1 ↔ Py.contains "Minor" name = true)
  ∧ resolve_key (KeyObject None name) = Ok (key_from_name "C" name)
  ∧ (key_from_name "C" name ∈ key_note_names)
  ∧ (Forall (λ noteName, Py.contains noteName name = false) key_note_names →
     key_from_name "C" name = "C")
  ∧ (Py.contains (key_from_name "C" name) name = true
     ∨ Forall (λ noteName, Py.contains noteName name = false) key_note_names).
Proof.
  split; [unfold minor_from_name; by destruct (Py.contains _ _)|].
  split; [done|].
  unfold key_from_name.
  destruct (find _ key_note_names) as [noteName|] eqn:E.
  - apply find_some in E as [Hin Hc]. apply list_elem_of_In in Hin.
    split; [done|]. split; [|by left].
    intros Hall. rewrite Forall_forall in Hall.
    rewrite (Hall _ Hin) in Hc. done.
  - split; [by left|]. split; [done|]. right.
    apply Forall_forall. intros noteName Hin.
    by apply (find_none _ _ E), list_elem_of_In.
Qed.

(** One step of the loop over the note names: either the name is found and
    is the result, or it is not and the loop goes on. *)
Ltac key_step name noteName :=
  destruct (Py.contains noteName name) eqn:?;
  [ first
      [ by (let Hin := fresh "Hin" in
            intros Hin;
            repeat (apply elem_of_cons in Hin as [?|Hin]; [done|]);
            by apply elem_of_nil in Hin)
      | exfalso;
        match goal with
        | H : Py.contains (String _ (String _ _)) name = true |- _ =>
            apply contains_first in H; congruence
        end ]
  | ].

(** C4.  The name list does not put every multi-character name before its
    one-character prefix: ["C"] is tried before ["C#"] (and ["B"] before
    ["Bb"], ["E"] before ["Eb"], and so on), so a name spelling C sharp
    resolves to ["C"] and one spelling E flat to ["E"], and no
    name ever resolves to ["C#"], ["Bb"], ["Eb"], ["Ab"], ["Db"], ["Gb"] or
    ["Cb"]. *)
Theorem C4_key_name_order :
  key_note_names !! 0%nat = Some "C" ∧ key_note_names !! 7%nat = Some "C#"
  ∧ Py.contains "C#" "KeySignature.C#Major" = true
  ∧ resolve_key (KeyObject None "KeySignature.C#Major") = Ok "C"
  ∧ resolve_key (KeyObject None "KeySignature.EbMajor") = Ok "E"
  ∧ resolve_key (KeyObject None "KeySignature.F#Major") = Ok "F#"
  ∧ ∀ name, key_from_name "C" name ∉ ["C#"; "Bb"; "Eb"; "Ab"; "Db"; "Gb"; "Cb"].
Proof.
  do 6 (split; [by vm_compute|]).
  intros name. unfold key_from_name, key_note_names. cbn [find].
  key_step name "C". key_step name "G". key_step name "D".
  key_step name "A". key_step name "E". key_step name "B".
  key_step name "F#". key_step name "C#". key_step name "F".
  key_step name "Bb". key_step name "Eb". key_step name "Ab".
  key_step name "Db". key_step name "Gb". key_step name "Cb".
  intros Hin. repeat (apply elem_of_cons in Hin as [?|Hin]; [done|]).
  by apply elem_of_nil in Hin.
Qed.

(** ** When the emitter raises *)

Lemma for_each_ok {A B : Type} (f : A → result (list B)) (l : list A) :
  Forall (λ x, ∃ ys, f x = Ok ys) l → ∃ zs, for_each f l = Ok zs.
Proof.
  induction 1 as [|x l [ys Hx] _ [zs IH]]; cbn; [by eexists|].
  rewrite Hx. cbn. rewrite IH. by eexists.
Qed.

Lemma for_each_singletons {A B : Type} (f : A → result B) (l : list A) :
  Forall (λ x, ∃ y, f x = Ok y) l →
  ∃ zs, for_each (λ x, y ← f x; Ok [y]) l = Ok zs ∧ length zs = length l.
Proof.
  induction 1 as [|x l [y Hx] _ (zs & IH & Hlen)]; cbn; [by eexists|].
  rewrite Hx. cbn. rewrite IH. eexists. split; [done|]. cbn. by rewrite Hlen.
Qed.

Lemma open_pitch_ok (strings : list Z) (note : Note.t) :
  note_ok strings note →
  Note.string note ≤ Z.of_nat (length strings) →
  ∃ open_pitch, Py.index strings (Note.string note - 1) = Ok open_pitch.
Proof.
  unfold note_ok, Py.index. intros Hlo Hhi.
  set (n := Z.of_nat (length strings)) in *.
  set (i := Note.string note - 1).
  assert (0 ≤ (if i <? 0 then i + n else i) < n) as Hj
    by (destruct (Z.ltb_spec i 0); lia).
  destruct (Z.leb_spec 0 (if i <? 0 then i + n else i)); [|lia].
  destruct (Z.ltb_spec (if i <? 0 then i + n else i) n); [|lia].
  cbn. destruct (lookup_lt_is_Some_2 strings
                   (Z.to_nat (if i <? 0 then i + n else i))) as [x Hx];
    [lia|].
  rewrite Hx. by eexists.
Qed.

Lemma chord_pitches_ok (strings : list Z) (notes : list Note.t) :
  Forall (note_ok strings) notes → ∃ pitches, chord_pitches strings notes = Ok pitches.
Proof.
  intros Hok. apply for_each_ok. eapply Forall_impl; [done|].
  intros note Hnote. cbn.
  destruct (Z.leb_spec (Note.string note) (Z.of_nat (length strings)));
    [|by eexists].
  destruct (open_pitch_ok strings note) as [open_pitch ->]; [done..|].
  by eexists.
Qed.

Lemma pitch_names_ok (pitches : list Z) :
  ∃ names, for_each (λ p, s ← midi_to_abc p; Ok [s]) pitches = Ok names.
Proof.
  destruct (for_each_singletons midi_to_abc pitches) as (zs & Hzs & _);
    [|by eexists].
  apply Forall_true. intros p. rewrite midi_to_abc_token. by eexists.
Qed.

Lemma chord_token_ok (strings : list Z) (beat : Beat.t) :
  beat_ok strings beat → ∃ token, chord_token strings beat = Ok token.
Proof.
  intros Hok. unfold chord_token.
  destruct (chord_pitches_ok strings (Beat.notes beat) Hok) as [pitches ->].
  cbn. rewrite identify_chord_label. cbn.
  destruct (pitch_names_ok (Py.sorted pitches)) as [names Hnames].
  destruct (chord_label pitches) as [label|];
    [destruct (Py.truthy_str label)|]; rewrite ?Hnames; by eexists.
Qed.

Lemma note_pitch_ok (strings : list Z) (note : Note.t) :
  note_ok strings note → ∃ pitch, note_pitch strings note = Ok pitch.
Proof.
  intros Hok. unfold note_pitch.
  destruct (Z.leb_spec (Note.string note) (Z.of_nat (length strings)));
    [|by eexists].
  destruct (open_pitch_ok strings note) as [open_pitch ->]; [done..|].
  by eexists.
Qed.


Lemma note_token_ok (strings : list Z) (note : Note.t) (beat : Beat.t) :
  note_ok strings note → ∃ token, note_token strings note beat = Ok token.
Proof.
  intros Hok. unfold note_token.
  destruct (note_pitch_ok strings note Hok) as [pitch ->]. cbn.
  rewrite midi_to_abc_token. by eexists.
Qed.

Lemma beat_tokens_ok (strings : list Z) (beat : Beat.t) :
  beat_ok strings beat → ∃ tokens, beat_tokens strings beat = Ok tokens.
Proof.
  intros Hok. unfold beat_tokens.
  destruct (Beat.notes beat) as [|note notes] eqn:E; [by eexists|].
  destruct (1 <? Z.of_nat (length (note :: notes))).
  - destruct (chord_token_ok strings beat Hok) as [token ->]. by eexists.
  - destruct (note_token_ok strings note beat) as [token ->]; [|by eexists].
    unfold beat_ok in Hok. rewrite E in Hok. by apply Forall_cons in Hok as [? _].
Qed.

Lemma measure_lines_ok (strings : list Z) (measure : Measure.t) :
  measure_ok strings measure → ∃ lines, measure_lines strings measure = Ok lines.
Proof.
  unfold measure_ok, measure_lines.
  destruct (Measure.voices measure) as [|voice _]; [by eexists|].
  intros Hok.
  destruct (for_each_ok (beat_tokens strings) (Voice.beats voice)) as [ts ->];
    [|by eexists].
  eapply Forall_impl; [done|]. apply beat_tokens_ok.
Qed.

Lemma tuning_names_ok (track : Track.t) :
  ∃ names, tuning_names track = Ok names.
Proof.
  apply for_each_ok, Forall_true. intros p.
  destruct (index_in_range tuning_note_names (p mod 12)) as (n & _ & ->);
    [by apply Z.mod_pos_bound|].
  by eexists.
Qed.

Lemma track_block_ok (ctx : Context) (tune_index : Z) (track : Track.t) :
  track_ok track →
  ∃ names body,
    tuning_names track = Ok names
    ∧ for_each (measure_lines (Track.strings track)) (Track.measures track)
      = Ok body
    ∧ track_block ctx tune_index track
      = Ok (track_header ctx tune_index track names ++ body ++ [""]).
Proof.
  intros Hok. unfold track_block.
  destruct (tuning_names_ok track) as [names Hnames].
  destruct (for_each_ok (measure_lines (Track.strings track))
              (Track.measures track)) as [body Hbody].
  { eapply Forall_impl; [done|]. apply measure_lines_ok. }
  exists names, body. by rewrite Hnames, Hbody.
Qed.

(** Whatever a track block is, it is a header for the current context and
    tune index, then the measures, then the blank line. *)
Lemma track_block_inv (ctx : Context) (tune_index : Z) (track : Track.t)
    (block : list string) :
  track_block ctx tune_index track = Ok block →
  ∃ names body,
    block = track_header ctx tune_index track names ++ body ++ [""].
Proof.
  unfold track_block.
  destruct (tuning_names track) as [names|]; [|done]. cbn.
  destruct (for_each _ _) as [body|]; [|done]. cbn.
  intros [= <-]. by eexists _, _.
Qed.

(** ** The loop over the tracks *)

Lemma track_header_shape (ctx : Context) (tune_index : Z) (track : Track.t)
    (names : list string) :
  ∃ pre mid,
    track_header ctx tune_index track names
    = ["Track: " +:+ track_name track +:+ " (" +:+ instrument_of track +:+ ")"]
      ++ pre
      ++ ["Tuning: " +:+ Py.join " " names; "ABC Notation:";
          "X:" +:+ Py.str tune_index; "T:" +:+ song_title ctx]
      ++ mid
      ++ ["N:" +:+ track_name track +:+ " (" +:+ instrument_of track +:+ ")";
          "M:" +:+ Py.str (num ctx) +:+ "/" +:+ Py.str (den ctx);
          "L:1/16";
          "Q:1/4=" +:+ Py.str (ctx_tempo ctx);
          "K:" +:+ key_text ctx].
Proof.
  unfold track_header.
  exists
    ((if Py.truthy_str (Track.description track)
      then ["Description: " +:+ Track.description track] else [])
     ++ (if Py.truthy_str (Track.comments track)
         then ["Comments: " +:+ Track.comments track] else [])),
    (((λ subtitle, "T:" +:+ subtitle) <$> song_subtitles ctx)
     ++ ["C:" +:+ (if bool_decide (song_composer ctx ≠ "Unknown Composer")
                   then song_composer ctx else "");
         "A:" +:+ (if bool_decide (song_artist ctx ≠ "Unknown Artist")
                   then song_artist ctx else "");
         "Z:" +:+ (if bool_decide (song_album ctx ≠ "Unknown Album")
                   then song_album ctx else "")]).
  by rewrite <-!app_assoc.
Qed.

Lemma process_track_skipped (ctx : Context) (st : list string * Z)
    (track : Track.t) :
  admitted track = false → process_track ctx st track = Ok st.
Proof.
  unfold admitted, process_track. destruct st as [output tune_index].
  destruct (Track.isPercussionTrack track); [done|]. cbn.
  by intros ->.
Qed.

Lemma process_track_admitted (ctx : Context) (output : list string)
    (tune_index : Z) (track : Track.t) :
  admitted track = true →
  process_track ctx (output, tune_index) track
  = (block ← track_block ctx tune_index track;
     Ok (output ++ block, tune_index + 1)).
Proof.
  unfold admitted, process_track.
  destruct (Track.isPercussionTrack track); [done|]. cbn.
  by intros ->.
Qed.

(** The output of the loop is the output before it followed by one block
    per admitted track, in the order of the tracks, the i-th of them (from 0)
    under the tune index [tune_index + i]. *)
Lemma process_tracks_blocks (ctx : Context) (tracks : list Track.t) :
  ∀ output tune_index output' tune_index',
    process_tracks ctx (output, tune_index) tracks = Ok (output', tune_index') →
    ∃ blocks,
      output' = output ++ concat blocks
      ∧ tune_index' = tune_index + Z.of_nat (length blocks)
      ∧ length blocks = length (filter (λ t, admitted t = true) tracks)
      ∧ ∀ (i : nat) track,
          filter (λ t, admitted t = true) tracks !! i = Some track →
          ∃ block, blocks !! i = Some block
                   ∧ track_block ctx (tune_index + Z.of_nat i) track = Ok block.
Proof.
  induction tracks as [|track tracks IH]; intros output tune_index output' tune_index'.
  - intros [= <- <-]. exists []. cbn. rewrite app_nil_r.
    split; [done|]. split; [lia|]. split; [done|]. by intros i t.
  - cbn [process_tracks]. destruct (admitted track) eqn:Hadm.
    + rewrite process_track_admitted, filter_cons_True by done.
      destruct (track_block ctx tune_index track) as [block|] eqn:Hblock;
        [|done].
      cbn [mbind result_bind].
      intros (blocks & -> & -> & Hlen & Hnth)%IH.
      exists (block :: blocks).
      split; [by rewrite concat_cons, app_assoc|].
      split; [rewrite length_cons; lia|].
      split; [by rewrite !length_cons, Hlen|].
      intros [|i] t Hi.
      * injection Hi as <-. exists block. by rewrite Z.add_0_r.
      * destruct (Hnth i t Hi) as (b & Hb & Hbt). exists b. split; [done|].
        by replace (tune_index + Z.of_nat (S i))
          with (tune_index + 1 + Z.of_nat i) by lia.
    + rewrite process_track_skipped by done.
      rewrite filter_cons_False by (by rewrite Hadm). apply IH.
Qed.


(** ** C5: track admission and the tune index *)

(** C5.  A track is given output exactly when it is not percussion and its
    program is in 24-31, or it has 6 or more strings, or its program is in
    32-39, or it has 4 or 5 strings.  A track failing the test leaves the
    output and the tune index as they are; an admitted track (whose notes do
    not raise) appends a block that carries the current tune index and
    advances the index by one.  The index starts at 1, and the blocks are
    those of the admitted tracks in source order, numbered from the start
    index upwards. *)
Theorem C5_track_admission :
  (∀ track : Track.t,
     admitted track = true ↔
     Track.isPercussionTrack track = false
     ∧ ((∃ prog, Track.instrument track = Some prog ∧ 24 ≤ prog ≤ 31)
        ∨ (6 ≤ length (Track.strings track))%nat
        ∨ (∃ prog, Track.instrument track = Some prog ∧ 32 ≤ prog ≤ 39)
        ∨ (4 ≤ length (Track.strings track) ≤ 5)%nat))
  ∧ (∀ ctx output tune_index track,
       admitted track = false →
       process_track ctx (output, tune_index) track = Ok (output, tune_index))
  ∧ (∀ ctx output tune_index track,
       admitted track = true → track_ok track →
       ∃ block,
         process_track ctx (output, tune_index) track
         = Ok (output ++ block, tune_index + 1)
         ∧ "X:" +:+ Py.str tune_index ∈ block)
  ∧ (∀ song, transcode_lines song
             = (ctx ← resolve_context song;
                process_tracks ctx (preamble song ctx, 1) (Song.tracks song)))
  ∧ (∀ ctx tracks output tune_index output' tune_index',
       process_tracks ctx (output, tune_index) tracks
       = Ok (output', tune_index') →
       ∃ blocks,
         output' = output ++ concat blocks
         ∧ tune_index' = tune_index + Z.of_nat (length blocks)
         ∧ length blocks = length (filter (λ t, admitted t = true) tracks)
         ∧ ∀ (i : nat) track,
             filter (λ t, admitted t = true) tracks !! i = Some track →
             ∃ block,
               blocks !! i = Some block
               ∧ track_block ctx (tune_index + Z.of_nat i) track = Ok block
               ∧ "X:" +:+ Py.str (tune_index + Z.of_nat i) ∈ block).
Proof.
  split; [|split; [|split; [|split]]].
  - intros track. unfold admitted, is_guitar, is_bass, in_range.
    destruct (Track.isPercussionTrack track); [naive_solver|].
    destruct (Track.instrument track) as [prog|]; cbn;
      rewrite ?orb_true_iff, ?andb_true_iff, ?Z.leb_le; naive_solver lia.
  - intros. by apply process_track_skipped.
  - intros ctx output tune_index track Hadm Hok.
    rewrite process_track_admitted by done.
    destruct (track_block_ok ctx tune_index track Hok)
      as (names & body & _ & _ & ->).
    eexists. split; [done|].
    destruct (track_header_shape ctx tune_index track names)
      as (pre & mid & ->).
    set_solver.
  - done.
  - intros ctx tracks output tune_index output' tune_index' Hrun.
    destruct (process_tracks_blocks _ _ _ _ _ _ Hrun)
      as (blocks & Hout & Hidx & Hlen & Hnth).
    exists blocks. do 3 (split; [done|]).
    intros i track Hi. destruct (Hnth i track Hi) as (block & Hb & Hblock).
    exists block. do 2 (split; [done|]).
    destruct (track_block_inv _ _ _ _ Hblock) as (names & body & ->).
    destruct (track_header_shape ctx (tune_index + Z.of_nat i) track names)
      as (pre & mid & ->).
    set_solver.
Qed.

(** The theorem on four tracks: drums, a guitar by its program, a piano, and
    a bass by its five strings. *)
Lemma C5_track_admission_witness :
  ∃ blocks,
    fst <$> process_tracks sample_context ([], 1) two_tracks_admitted
    = Ok (concat blocks)
    ∧ length blocks = 2%nat
    ∧ "X:1" ∈ default [] (blocks !! 0%nat)
    ∧ "X:2" ∈ default [] (blocks !! 1%nat).
Proof.
  destruct (process_tracks sample_context ([], 1) two_tracks_admitted)
    as [[output tune_index]|] eqn:Hrun; [|by vm_compute in Hrun].
  destruct C5_track_admission as (_ & _ & _ & _ & Hblocks).
  destruct (Hblocks _ _ _ _ _ _ Hrun) as (blocks & -> & _ & Hlen & Hnth).
  exists blocks. split; [done|]. split; [exact Hlen|].
  split.
  - destruct (Hnth 0%nat _ eq_refl) as (block & -> & _ & Hx). exact Hx.
  - destruct (Hnth 1%nat _ eq_refl) as (block & -> & _ & Hx). exact Hx.
Defined.

(** ** C6: the instrument label *)

(** C6, as stated, fails: a track with a program in the guitar range 24-31
    and four strings is admitted and labelled ["(Bass)"]. *)
Lemma C6_counterexample :
  admitted guitar_program_four_strings = true
  ∧ in_range 24 31 (Track.instrument guitar_program_four_strings) = true
  ∧ instrument_of guitar_program_four_strings = "Bass"
  ∧ track_block sample_context 1 guitar_program_four_strings
    = Ok ["Track: Tenor (Bass)"; "Tuning: E4 B3 G3 D3"; "ABC Notation:";
          "X:1"; "T:Untitled"; "C:"; "A:"; "Z:"; "N:Tenor (Bass)"; "M:4/4";
          "L:1/16"; "Q:1/4=120"; "K:C"; ""]
  ∧ ¬ (∀ track,
         admitted track = true →
         in_range 24 31 (Track.instrument track) = true →
         instrument_of track = "Guitar").
Proof.
  do 4 (split; [by vm_compute|]).
  intros Hclaim.
  by specialize (Hclaim guitar_program_four_strings eq_refl eq_refl).
Qed.

(** C6, amended.  The label is ["Bass"] exactly when the program is in
    32-39 or the track has 4 or 5 strings, and ["Guitar"] otherwise: a
    program in 32-39 gives ["Bass"] whatever the strings, a program in 24-31
    gives ["Guitar"] unless the track has 4 or 5 strings; the label is the
    one written in the ["Track:"] and ["N:"] lines of the block. *)
Theorem C6_instrument_label (track : Track.t) :
  let prog := Track.instrument track in
  let num_strings := length (Track.strings track) in
  (instrument_of track = "Bass" ↔
   in_range 32 39 prog = true ∨ (4 ≤ num_strings ≤ 5)%nat)
  ∧ (instrument_of track = "Guitar" ↔
     ¬ (in_range 32 39 prog = true ∨ (4 ≤ num_strings ≤ 5)%nat))
  ∧ (in_range 32 39 prog = true → instrument_of track = "Bass")
  ∧ (in_range 24 31 prog = true →
     (instrument_of track = "Guitar" ↔ ¬ (4 ≤ num_strings ≤ 5)%nat))
  ∧ (prog = None ∨ (in_range 24 31 prog = false ∧ in_range 32 39 prog = false) →
     (instrument_of track = "Bass" ↔ (4 ≤ num_strings ≤ 5)%nat))
  ∧ ∀ ctx tune_index block,
      track_block ctx tune_index track = Ok block →
      head block
      = Some ("Track: " +:+ track_name track +:+ " (" +:+ instrument_of track
              +:+ ")")
      ∧ "N:" +:+ track_name track +:+ " (" +:+ instrument_of track +:+ ")"
        ∈ block.
Proof.
  intros prog num_strings.
  assert (instrument_of track = "Bass" ↔
          in_range 32 39 prog = true ∨ (4 ≤ num_strings ≤ 5)%nat) as Hbass.
  { unfold instrument_of, is_bass. fold prog.
    destruct (in_range 32 39 prog); cbn; [split; [by left|done]|].
    destruct (_ && _) eqn:E.
    - apply andb_true_iff in E as [?%Z.leb_le ?%Z.leb_le].
      split; [|done]. intros _. right. unfold num_strings. lia.
    - split; [done|]. intros [?|?]; [done|]. exfalso.
      apply andb_false_iff in E as [?%Z.leb_gt|?%Z.leb_gt];
        unfold num_strings in *; lia. }
  assert (instrument_of track = "Guitar" ↔ instrument_of track ≠ "Bass")
    as Hguitar by (unfold instrument_of; by destruct (is_bass track)).
  assert (in_range 24 31 prog = true → in_range 32 39 prog = false) as Hexcl.
  { unfold in_range. destruct prog as [p|]; [|done].
    rewrite andb_true_iff, andb_false_iff, !Z.leb_le, !Z.leb_gt. lia. }
  split; [done|]. split; [by rewrite Hguitar, Hbass|].
  split; [by intros ?; apply Hbass; left|]. split; [|split].
  - intros Hg%Hexcl. rewrite Hguitar, Hbass, Hg. intuition congruence.
  - intros Hnone. rewrite Hbass.
    assert (in_range 32 39 prog = false) as ->
      by (destruct Hnone as [->|[_ ?]]; done).
    intuition congruence.
  - intros ctx tune_index block Hblock.
    destruct (track_block_inv _ _ _ _ Hblock) as (names & body & ->).
    destruct (track_header_shape ctx tune_index track names)
      as (pre & mid & ->).
    split; [done|]. set_solver.
Qed.

(** The amended statement on the track of the counterexample and on a bass
    program with six strings. *)
Lemma C6_instrument_label_witness :
  instrument_of guitar_program_four_strings = "Bass"
  ∧ instrument_of
      {| Track.name := "Six"; Track.number := 2;
         Track.isPercussionTrack := false; Track.instrument := Some 33;
         Track.strings := [64; 59; 55; 50; 45; 40]; Track.measures := [];
         Track.description := ""; Track.comments := "" |} = "Bass".
Proof.
  split.
  - destruct (C6_instrument_label guitar_program_four_strings) as (H & _).
    apply H. right. cbn. lia.
  - match goal with
    | |- instrument_of ?t = _ =>
        destruct (C6_instrument_label t) as (_ & _ & H & _)
    end.
    apply H. reflexivity.
Defined.

(** ** C7: the time signature *)

Lemma resolve_context_time_signature (song : Song.t) (ctx : Context) :
  resolve_context song = Ok ctx →
  (num ctx, den ctx) = resolve_time_signature song.
Proof.
  unfold resolve_context. destruct (resolve_key _); [|done]. cbn.
  destruct (resolve_time_signature song). by intros [= <-].
Qed.

(** C7.  The time signature is read from the header of the first measure of
    the first track, and is 4/4 when there is no track or the first track
    has no measure; the context computed before the loop over the tracks
    holds it, and the block of every admitted track has the line ["M:"] of
    this one pair among its header lines, whatever the measures of the
    track. *)
Theorem C7_time_signature :
  (∀ song, Song.tracks song = [] → resolve_time_signature song = (4, 4))
  ∧ (∀ song track0 rest,
       Song.tracks song = track0 :: rest → Track.measures track0 = [] →
       resolve_time_signature song = (4, 4))
  ∧ (∀ song track0 rest measure0 measures,
       Song.tracks song = track0 :: rest →
       Track.measures track0 = measure0 :: measures →
       let ts := MeasureHeader.timeSignature (Measure.header measure0) in
       resolve_time_signature song
       = (TimeSignature.numerator ts,
          Duration.value (TimeSignature.denominator ts)))
  ∧ (∀ song output tune_index,
       transcode_lines song = Ok (output, tune_index) →
       ∃ ctx blocks,
         resolve_context song = Ok ctx
         ∧ (num ctx, den ctx) = resolve_time_signature song
         ∧ output = preamble song ctx ++ concat blocks
         ∧ length blocks
           = length (filter (λ t, admitted t = true) (Song.tracks song))
         ∧ ∀ (i : nat) track,
             filter (λ t, admitted t = true) (Song.tracks song) !! i
             = Some track →
             ∃ block pre body,
               blocks !! i = Some block
               ∧ track_block ctx (1 + Z.of_nat i) track = Ok block
               ∧ block = pre ++ [time_signature_line song; "L:1/16"] ++ body).
Proof.
  split; [|split; [|split]].
  - intros song Htracks. unfold resolve_time_signature. by rewrite Htracks.
  - intros song track0 rest Htracks Hmeasures.
    unfold resolve_time_signature. by rewrite Htracks, Hmeasures.
  - intros song track0 rest measure0 measures Htracks Hmeasures.
    unfold resolve_time_signature. by rewrite Htracks, Hmeasures.
  - intros song output tune_index. unfold transcode_lines.
    destruct (resolve_context song) as [ctx|] eqn:Hctx; [|done].
    cbn [mbind result_bind].
    intros (blocks & -> & _ & Hlen & Hnth)%process_tracks_blocks.
    pose proof (resolve_context_time_signature _ _ Hctx) as Hts.
    exists ctx, blocks. do 4 (split; [done|]).
    intros i track Hi. destruct (Hnth i track Hi) as (block & Hb & Hblock).
    destruct (track_block_inv _ _ _ _ Hblock) as (names & body & ->).
    destruct (track_header_shape ctx (1 + Z.of_nat i) track names)
      as (pre & mid & Hshape).
    exists
      (track_header ctx (1 + Z.of_nat i) track names ++ body ++ [""]),
      (["Track: " +:+ track_name track +:+ " (" +:+ instrument_of track
        +:+ ")"]
       ++ pre
       ++ ["Tuning: " +:+ Py.join " " names; "ABC Notation:";
           "X:" +:+ Py.str (1 + Z.of_nat i); "T:" +:+ song_title ctx]
       ++ mid
       ++ ["N:" +:+ track_name track +:+ " (" +:+ instrument_of track
           +:+ ")"]),
      (["Q:1/4=" +:+ Py.str (ctx_tempo ctx); "K:" +:+ key_text ctx]
       ++ body ++ [""]).
    split; [done|]. split; [done|].
    rewrite Hshape. unfold time_signature_line. rewrite <-Hts. cbn [fst snd].
    by rewrite <-!app_assoc.
Qed.

(** The theorem on that song: the block of the bass carries the 6/8 of the
    guitar's first measure. *)
Lemma C7_time_signature_witness :
  ∃ ctx block pre body,
    resolve_context two_meters = Ok ctx
    ∧ track_block ctx 2 bass_in_three_four = Ok block
    ∧ block = pre ++ ["M:6/8"; "L:1/16"] ++ body.
Proof.
  destruct (transcode_lines two_meters) as [[output tune_index]|] eqn:Hrun;
    [|by vm_compute in Hrun].
  destruct C7_time_signature as (_ & _ & _ & Hall).
  destruct (Hall _ _ _ Hrun) as (ctx & blocks & Hctx & _ & _ & _ & Hnth).
  destruct (Hnth 1%nat _ eq_refl) as (block & pre & body & _ & Hblock & Heq).
  exists ctx, block, pre, body. split; [exact Hctx|]. split; [exact Hblock|].
  exact Heq.
Defined.

(** ** C8: a string number beyond the strings *)





(** ** C10: rests and beat texts *)

(** C10, as stated, fails on a text that is only white space: the beat has a
    note and a text, and no token is written for the text. *)
Lemma C10_counterexample :
  beat_tokens six_strings beat_blank_text = Ok ["E4"]
  ∧ ¬ (∀ strings beat text_value tokens,
         Beat.notes beat ≠ [] →
         Beat.text beat = Some text_value →
         beat_tokens strings beat = Ok tokens →
         dquote +:+ "(" +:+ text_value +:+ ")" +:+ dquote ∈ tokens).
Proof.
  split; [by vm_compute|].
  intros Hclaim.
  specialize (Hclaim six_strings beat_blank_text " " ["E4"]).
  assert (dquote +:+ "(" +:+ " " +:+ ")" +:+ dquote ∈ ["E4"]) as Hin
    by (by apply Hclaim).
  apply elem_of_cons in Hin as [Heq|Hin]; [by vm_compute in Heq|].
  by apply elem_of_nil in Hin.
Qed.

Lemma bar_content_length (strings : list Z) (beats : list Beat.t) :
  ∀ bar_content,
    for_each (beat_tokens strings) beats = Ok bar_content →
    length bar_content = sum_list (token_count <$> beats).
Proof.
  induction beats as [|beat beats IH]; intros bar_content; cbn.
  - by intros [= <-].
  - destruct (beat_tokens strings beat) as [tokens|] eqn:Ht; [|done]. cbn.
    destruct (for_each _ beats) as [rest|]; [|done]. cbn.
    intros [= <-]. rewrite length_app, (IH rest eq_refl). f_equal.
    unfold token_count.
    destruct (beat_tokens_cases _ _ _ Ht)
      as [[-> ->]|[(note & token & -> & _ & ->)|(token & Hlen & _ & ->)]].
    + done.
    + by rewrite length_app.
    + rewrite length_app.
      destruct (Beat.notes beat); [cbn in Hlen; lia|done].
Qed.

Lemma bar_lines_wrap (bar_content : list string) :
  ((length bar_content ≤ 16)%nat →
   bar_lines bar_content = [Py.join " " bar_content +:+ " |"])
  ∧ ((16 < length bar_content)%nat → (2 ≤ length (bar_lines bar_content))%nat).
Proof.
  unfold bar_lines. split; intros Hlen.
  - by destruct (Z.ltb_spec 16 (Z.of_nat (length bar_content))); [lia|].
  - destruct (Z.ltb_spec 16 (Z.of_nat (length bar_content))); [|lia].
    rewrite length_imap. unfold Py.chunks.
    destruct bar_content as [|t0 bar_content]; [cbn in Hlen; lia|].
    cbn [length Py.chunks_fuel].
    assert (length (drop 16 (t0 :: bar_content)) = length bar_content - 15)%nat
      as Hdrop by (rewrite length_drop; cbn [length]; lia).
    destruct (drop 16 (t0 :: bar_content)) as [|t1 rest] eqn:Hd.
    { cbn in Hdrop, Hlen. lia. }
    destruct (length bar_content) as [|n] eqn:Hn; [cbn in Hlen; lia|].
    cbn [Py.chunks_fuel length]. lia.
Qed.

(** C10, amended.  A beat without notes gives the one rest token, whatever
    its text and effects.  A beat with notes gives the tokens of its text
    followed by its one note or chord token, and the text gives one token,
    the text in parentheses between double quotes, when it is present and not
    blank, and none otherwise.  The bar is wrapped on the number of all these
    tokens: one line up to 16, several lines above. *)
Theorem C10_rest_and_text :
  (∀ strings beat,
     Beat.notes beat = [] →
     beat_tokens strings beat
     = Ok ["z" +:+ duration_suffix (Beat.duration beat)])
  ∧ (∀ strings beat tokens,
       Beat.notes beat ≠ [] →
       beat_tokens strings beat = Ok tokens →
       ∃ token,
         tokens = text_tokens beat ++ [token]
         ∧ (chord_token strings beat = Ok token
            ∨ ∃ note, Beat.notes beat = [note]
                      ∧ note_token strings note beat = Ok token))
  ∧ (∀ beat text_value,
       Beat.text beat = Some text_value →
       Py.strip text_value ≠ "" →
       text_tokens beat = [dquote +:+ "(" +:+ text_value +:+ ")" +:+ dquote])
  ∧ (∀ beat,
       (Beat.text beat = None
        ∨ ∃ text_value, Beat.text beat = Some text_value
                        ∧ Py.strip text_value = "") →
       text_tokens beat = [])
  ∧ (∀ strings measure voice voices lines,
       Measure.voices measure = voice :: voices →
       measure_lines strings measure = Ok lines →
       ∃ bar_content,
         for_each (beat_tokens strings) (Voice.beats voice) = Ok bar_content
         ∧ lines = header_lines (Measure.header measure) ++ bar_lines bar_content
         ∧ length bar_content = sum_list (token_count <$> Voice.beats voice)
         ∧ ((length bar_content ≤ 16)%nat →
            bar_lines bar_content = [Py.join " " bar_content +:+ " |"])
         ∧ ((16 < length bar_content)%nat →
            (2 ≤ length (bar_lines bar_content))%nat)).
Proof.
  split; [|split; [|split; [|split]]].
  - intros strings beat Hnotes. unfold beat_tokens. by rewrite Hnotes.
  - intros strings beat tokens Hnotes Ht.
    destruct (beat_tokens_cases _ _ _ Ht)
      as [[? _]|[(note & token & Hn & Hnt & ->)|(token & _ & Hct & ->)]];
      [done|..]; exists token; split; try done.
    + right. by exists note.
    + by left.
  - intros beat text_value Htext Hstrip. unfold text_tokens. rewrite Htext.
    unfold Py.truthy_str. by destruct (String.eqb_spec (Py.strip text_value) "").
  - intros beat [Htext|(text_value & Htext & Hstrip)];
      unfold text_tokens; rewrite Htext; [done|]. by rewrite Hstrip.
  - intros strings measure voice voices lines Hvoices. unfold measure_lines.
    rewrite Hvoices.
    destruct (for_each _ (Voice.beats voice)) as [bar_content|] eqn:Hbar;
      [|done].
    intros [= <-]. exists bar_content. do 2 (split; [done|]).
    split; [by apply (bar_content_length strings)|]. apply bar_lines_wrap.
Qed.

(** The amended statement on a rest that carries a text, on the text of a note,
    and on a bar of sixteen notes that the text of the first note brings to
    seventeen tokens and so to two lines. *)
Lemma C10_rest_and_text_witness :
  beat_tokens six_strings
    {| Beat.duration := quarter; Beat.notes := []; Beat.text := Some "Am";
       Beat.effect := None |} = Ok ["z4"]
  ∧ text_tokens (plain_beat (Some "Am")) = [dquote +:+ "(Am)" +:+ dquote]
  ∧ ∃ lines,
      measure_lines six_strings annotated_measure = Ok lines
      ∧ (2 ≤ length lines)%nat.
Proof.
  destruct C10_rest_and_text as (Hrest & _ & Htext & _ & Hbar).
  split; [|split].
  - match goal with
    | |- beat_tokens ?s ?b = _ => exact (Hrest s b eq_refl)
    end.
  - apply (Htext (plain_beat (Some "Am")) "Am"); [reflexivity|].
    by vm_compute.
  - destruct (measure_lines six_strings annotated_measure) as [lines|] eqn:Hm;
      [|by vm_compute in Hm].
    destruct (Hbar six_strings annotated_measure _ _ _ eq_refl Hm)
      as (bar_content & _ & -> & Hlen & _ & Hwrap).
    eexists. split; [reflexivity|].
    rewrite length_app. etrans; [apply Hwrap|lia].
    rewrite Hlen. vm_compute. lia.
Defined.

(** ** C9: determinism *)




(** * Further properties *)

(** ** [sanitize_for_api] *)

Lemma sub_non_ascii_ascii (in_match : bool) (text : list N) :
  Forall (λ c, non_ascii c = false) text → sub_non_ascii in_match text = text.
Proof.
  intros Hall. revert in_match.
  induction Hall as [|c text Hc _ IH]; intros in_match; cbn; [done|].
  by rewrite Hc, IH.
Qed.

Lemma sub_non_ascii_in_match (text : list N) :
  sub_non_ascii false text
  = match text with
    | c :: _ =>
        if non_ascii c then symbol_placeholder ++ sub_non_ascii true text
        else sub_non_ascii true text
    | [] => []
    end.
Proof. destruct text as [|c rest]; [done|]. cbn. by destruct (non_ascii c). Qed.

Lemma symbol_placeholder_ascii :
  Forall (λ c, non_ascii c = false) symbol_placeholder.
Proof. by repeat constructor. Qed.

Lemma sub_non_ascii_output (in_match : bool) (text : list N) :
  Forall (λ c, non_ascii c = false) (sub_non_ascii in_match text).
Proof.
  revert in_match.
  induction text as [|c text IH]; intros in_match; cbn [sub_non_ascii];
    [done|].
  destruct (non_ascii c) eqn:Hc; [|by constructor].
  destruct in_match; [done|]. apply Forall_app. split; [|done].
  apply symbol_placeholder_ascii.
Qed.

Lemma sanitize_output_ascii (text : list N) :
  Forall (λ c, (c ≤ 127)%N) (sanitize_for_api text).
Proof.
  pose proof (sub_non_ascii_output false text) as Hout.
  eapply Forall_impl; [exact Hout|]. intros c Hc. cbn in Hc.
  unfold non_ascii in Hc. by apply N.ltb_ge.
Qed.

(** What comes out of [sanitize_for_api] is ASCII only, so sanitizing again
    changes nothing. *)
Theorem sanitize_ascii_idempotent (text : list N) :
  Forall (λ c, (c ≤ 127)%N) (sanitize_for_api text)
  ∧ sanitize_for_api (sanitize_for_api text) = sanitize_for_api text.
Proof.
  split; [apply sanitize_output_ascii|].
  apply sub_non_ascii_ascii, sub_non_ascii_output.
Qed.

(** A text is left as it is exactly when it has no character outside
    ASCII. *)
Theorem sanitize_unchanged_iff (text : list N) :
  sanitize_for_api text = text ↔ Forall (λ c, (c ≤ 127)%N) text.
Proof.
  split.
  - intros <-. apply sanitize_output_ascii.
  - intros Hall. apply sub_non_ascii_ascii.
    eapply Forall_impl; [exact Hall|]. intros c Hc. cbn in Hc.
    by apply N.ltb_ge.
Qed.

Lemma sub_non_ascii_run (run rest : list N) :
  Forall (λ c, non_ascii c = true) run →
  sub_non_ascii true (run ++ rest) = sub_non_ascii true rest.
Proof.
  induction 1 as [|c run Hc _ IH]; [done|]. cbn. by rewrite Hc.
Qed.

Lemma sub_non_ascii_app_ascii (in_match : bool) (before : list N) (c : N)
    (after : list N) :
  non_ascii c = false →
  sub_non_ascii in_match (before ++ c :: after)
  = sub_non_ascii in_match before ++ c :: sub_non_ascii false after.
Proof.
  intros Hc. revert in_match.
  induction before as [|b before IH]; intros in_match;
    cbn [app sub_non_ascii].
  - by rewrite Hc.
  - destruct (non_ascii b); [destruct in_match|]; rewrite IH;
      by rewrite <-?app_assoc.
Qed.

(** A whole run of characters outside ASCII, however long, becomes one
    placeholder: with [before] empty or ending in an ASCII character, and
    [after] empty or starting with one, the text [before ++ run ++ after] is
    sanitized piece by piece, the run giving ["[SYMBOL]"] once. *)
Theorem sanitize_run (before run after : list N) :
  run ≠ [] →
  Forall (λ c, (127 < c)%N) run →
  (∀ c, last before = Some c → (c ≤ 127)%N) →
  (∀ c, head after = Some c → (c ≤ 127)%N) →
  sanitize_for_api (before ++ run ++ after)
  = sanitize_for_api before ++ symbol_placeholder ++ sanitize_for_api after.
Proof.
  intros Hne Hrun Hbefore Hafter. unfold sanitize_for_api.
  assert (Forall (λ c, non_ascii c = true) run) as Hrun'.
  { eapply Forall_impl; [exact Hrun|]. intros c Hc. by apply N.ltb_lt. }
  assert (sub_non_ascii true after = sub_non_ascii false after) as Hafter'.
  { destruct after as [|a after]; [done|]. cbn.
    assert (non_ascii a = false) as ->; [|done].
    apply N.ltb_ge. by apply Hafter. }
  assert (sub_non_ascii false (run ++ after)
          = symbol_placeholder ++ sub_non_ascii false after) as Hmid.
  { destruct run as [|r run]; [done|]. apply Forall_cons in Hrun' as [Hr Hrun'].
    cbn [app sub_non_ascii]. rewrite Hr.
    by rewrite sub_non_ascii_run, Hafter'. }
  destruct (decide (before = [])) as [->|Hb]; [done|].
  destruct (exists_last Hb) as (before' & b & ->).
  assert (non_ascii b = false) as Hbl.
  { apply N.ltb_ge, Hbefore. by rewrite last_snoc. }
  rewrite <-(app_assoc before' [b]). cbn [app].
  rewrite !sub_non_ascii_app_ascii by done.
  cbn [sub_non_ascii]. rewrite Hmid. by rewrite <-app_assoc.
Qed.

(** The ASCII characters of the text are all kept, in their order. *)
Theorem sanitize_keeps_ascii (text : list N) :
  filter (λ c, (c ≤ 127)%N) text `sublist_of` sanitize_for_api text.
Proof.
  unfold sanitize_for_api. generalize false.
  induction text as [|c text IH]; intros in_match; cbn [sub_non_ascii];
    [done|].
  destruct (non_ascii c) eqn:Hc.
  - rewrite filter_cons_False by (apply N.ltb_lt in Hc; lia).
    destruct in_match; [done|]. by apply sublist_inserts_l.
  - rewrite filter_cons_True by (by apply N.ltb_ge).
    by apply sublist_skip.
Qed.

(** [sanitize_run] on an accented word between two ASCII words. *)
Lemma sanitize_run_witness :
  sanitize_for_api ([67; 97; 102] ++ [233; 8364] ++ [32; 111; 107])%N
  = ([67; 97; 102] ++ symbol_placeholder ++ [32; 111; 107])%N.
Proof.
  rewrite sanitize_run.
  - reflexivity.
  - discriminate.
  - repeat constructor.
  - intros c [= <-]. by vm_compute.
  - intros c [= <-]. by vm_compute.
Defined.

(** ** The session *)

Lemma exchanges_app (messages more : list (string * string)) :
  exchanges messages → exchanges more → exchanges (messages ++ more).
Proof.
  revert more.
  induction messages as [messages IH] using (induction_ltof1 _ length).
  unfold ltof in IH. intros more Hm Hmore.
  destruct messages as [|[r1 c1] [|[r2 c2] rest]]; [done|done|].
  destruct Hm as (-> & -> & Hrest). cbn. do 2 (split; [done|]).
  apply IH; [cbn; lia|done..].
Qed.

Lemma transcoded_in_mono (ws ws' : list Widgets) (text : string) :
  ws ⊆ ws' → transcoded_in ws text → transcoded_in ws' text.
Proof. intros Hsub (w & song & Hw & ?). exists w, song. split; [set_solver|done]. Qed.

Lemma turns_from_app_user (after_user : bool)
    (messages : list (string * string)) (text : string) :
  turns_from after_user messages →
  turns_from after_user (messages ++ [("user", text)]).
Proof.
  revert after_user.
  induction messages as [|[role content] messages IH]; intros after_user;
    cbn [app turns_from].
  - intros _. by left.
  - intros [[-> H]|(-> & -> & H)]; [left|right]; by auto.
Qed.

Lemma turns_from_app_answer (after_user : bool)
    (messages : list (string * string)) (text answer : string) :
  turns_from after_user messages →
  turns_from after_user (messages ++ [("user", text); ("assistant", answer)]).
Proof.
  revert after_user.
  induction messages as [|[role content] messages IH]; intros after_user;
    cbn [app turns_from].
  - intros _. left. split; [done|]. by right.
  - intros [[-> H]|(-> & -> & H)]; [left|right]; by auto.
Qed.

Lemma process_upload_messages (w : Widgets) (st : Session.t) :
  Session.messages (process_upload w st) = Session.messages st.
Proof.
  unfold process_upload. destruct (uploaded_file w) as [|[song|]]; [done| |].
  - destruct (_ && _); [|done]. by destruct (process_guitar_pro song).
  - by destruct (_ && _).
Qed.

Lemma script_run_inv (ws : list Widgets) (st : Session.t) (w : Widgets) :
  session_inv ws st → session_inv (ws ++ [w]) (script_run st w).
Proof.
  intros (Hfp & Habc & Hmsg & Hturns & Hex). unfold script_run.
  assert (session_inv (ws ++ [w])
            (if reset_clicked w then reset_chat st else st)) as H1.
  { split; [|split; [|split; [|split]]].
    - by destruct (reset_clicked w).
    - intros text Ht. eapply transcoded_in_mono; [|apply (Habc text)].
      + set_solver.
      + by destruct (reset_clicked w).
    - by destruct (reset_clicked w).
    - by destruct (reset_clicked w).
    - intros [Hws _]%Forall_app. by destruct (reset_clicked w); [|apply Hex]. }
  clear Hfp Habc Hmsg Hturns Hex.
  set (st1 := if reset_clicked w then reset_chat st else st) in *.
  clearbody st1.
  assert (session_inv (ws ++ [w]) (process_upload w st1)) as H2.
  { destruct H1 as (Hfp & Habc & Hmsg & Hturns & Hex). unfold process_upload.
    destruct (uploaded_file w) as [|[song|]] eqn:Hup; [done| |].
    - destruct (_ && _) eqn:Hc; [|done].
      destruct (process_guitar_pro song) as [text|] eqn:Hrun; [|done].
      apply andb_true_iff in Hc as [_ Hnp]. apply negb_true_iff in Hnp.
      split; [|split; [|split; [|split]]]; cbn.
      + split; [by eexists|done].
      + intros ? [= <-]. exists w, song. split; [set_solver|done].
      + done.
      + done.
      + done.
    - by destruct (_ && _). }
  clear H1. set (st2 := process_upload w st1) in *. clearbody st2.
  assert (session_inv (ws ++ [w])
            (if Session.file_processed st2 && view_hide_clicked w
             then toggle_abc_view st2 else st2)) as H3.
  { by destruct (_ && _). }
  clear H2.
  set (st3 := if Session.file_processed st2 && view_hide_clicked w
              then toggle_abc_view st2 else st2) in *.
  clearbody st3. pose proof H3 as (Hfp & Habc & Hmsg & Hturns & Hex).
  unfold chat_turn.
  destruct (Py.truthy_str (openai_api_key w)); cbn [andb]; [|done].
  destruct (Session.file_processed st3) eqn:Hp; [|done].
  destruct (prompt w) as [text|]; [|done].
  destruct (Py.truthy_str text); [|done].
  cbn zeta. destruct (run_stopped w) eqn:Hstop.
  - split; [|split; [|split; [|split]]]; cbn; try done;
      first [ by rewrite Hp
            | by apply turns_from_app_user
            | intros [_ Hw]%Forall_app; apply Forall_cons_1 in Hw as [Hw _];
              congruence ].
  - split; [|split; [|split; [|split]]]; cbn; try done;
      rewrite <-?app_assoc;
      first [ by rewrite Hp
            | by apply turns_from_app_answer
            | intros Hall; apply exchanges_app; [by apply Hex|done] ].
Qed.

(** In every session, after any runs with any widget values, stopped or
    not: the file is marked as processed exactly when a notation is stored;
    the notation stored is the text that the transcoder returned for a file
    uploaded in the session (a file that the parser or the transcoder
    rejects stores nothing); the history is empty as long as no file is
    processed; the history holds user and assistant messages only, and an
    answer only straight after a user message.  A run stopped between the
    two appends leaves a user message without its answer: the history is a
    row of whole exchanges only as long as no run was stopped there. *)
Theorem session_invariant (ws : list Widgets) :
  let st := session_after ws in
  (Session.file_processed st = true ↔ is_Some (Session.abc_notation st))
  ∧ (∀ text, Session.abc_notation st = Some text → transcoded_in ws text)
  ∧ (Session.messages st ≠ [] → Session.file_processed st = true)
  ∧ turns_from false (Session.messages st)
  ∧ (Forall (λ w, run_stopped w = false) ws →
     exchanges (Session.messages st)).
Proof.
  change (session_inv ws (session_after ws)). unfold session_after.
  induction ws as [|w ws IH] using rev_ind.
  - split; [|split; [|split; [|split]]]; cbn; done.
  - rewrite foldl_app. cbn [foldl]. by apply script_run_inv.
Qed.

(** The theorem on a session with a stopped run: the first question stays
    in the history without an answer, before the exchange of the second. *)
Lemma session_invariant_witness :
  Session.messages
    (session_after [upload_run two_meters;
                    question_run "Which key?" Failed true;
                    question_run "Which meter?" (Streamed [Some "6/8"]) false])
  = [("user", "Which key?"); ("user", "Which meter?"); ("assistant", "6/8")]
  ∧ turns_from false
      [("user", "Which key?"); ("user", "Which meter?"); ("assistant", "6/8")]
  ∧ ¬ exchanges
      [("user", "Which key?"); ("user", "Which meter?"); ("assistant", "6/8")].
Proof.
  pose proof (session_invariant
                [upload_run two_meters;
                 question_run "Which key?" Failed true;
                 question_run "Which meter?" (Streamed [Some "6/8"]) false])
    as (_ & _ & _ & Hturns & _).
  assert (Session.messages
            (session_after
               [upload_run two_meters;
                question_run "Which key?" Failed true;
                question_run "Which meter?" (Streamed [Some "6/8"]) false])
          = [("user", "Which key?"); ("user", "Which meter?");
             ("assistant", "6/8")]) as Hm by (by vm_compute).
  rewrite Hm in Hturns. split; [exact Hm|]. split; [exact Hturns|].
  cbn. intros (_ & Hrole & _). discriminate Hrole.
Defined.

Lemma script_run_processed (st : Session.t) (w : Widgets) :
  Session.file_processed st = true →
  Session.file_processed (script_run st w) = true
  ∧ Session.abc_notation (script_run st w) = Session.abc_notation st.
Proof.
  intros Hp. unfold script_run, process_upload, chat_turn.
  assert (Session.file_processed
            (if reset_clicked w then reset_chat st else st) = true) as Hp1
    by (by destruct (reset_clicked w)).
  assert (Session.abc_notation
            (if reset_clicked w then reset_chat st else st)
          = Session.abc_notation st) as Ha1
    by (by destruct (reset_clicked w)).
  set (st1 := if reset_clicked w then reset_chat st else st) in *.
  clearbody st1. rewrite Hp1, andb_false_r.
  assert (match uploaded_file w with
          | NoFile => st1
          | File _ => st1
          end = st1) as -> by (by destruct (uploaded_file w)).
  rewrite Hp1. cbn [andb].
  destruct (view_hide_clicked w); cbn;
    destruct (Py.truthy_str (openai_api_key w)); cbn; try done;
    rewrite ?Hp1; destruct (prompt w) as [text|]; try done;
    destruct (Py.truthy_str text); try done;
    by destruct (run_stopped w).
Qed.

(** Once a file has been processed, no later run changes the stored
    notation, whatever is uploaded, clicked or asked afterwards: neither a
    new upload nor the reset of the chat replaces or clears it. *)
Theorem first_file_stays (st : Session.t) (ws : list Widgets) :
  Session.file_processed st = true →
  Session.file_processed (foldl script_run st ws) = true
  ∧ Session.abc_notation (foldl script_run st ws) = Session.abc_notation st.
Proof.
  revert st. induction ws as [|w ws IH]; intros st Hp; [done|].
  cbn [foldl]. destruct (script_run_processed st w Hp) as [Hp' Ha'].
  destruct (IH _ Hp') as [Hp'' Ha'']. by rewrite Ha'', Ha'.
Qed.

Lemma script_run_added (st : Session.t) (w : Widgets) :
  reset_clicked w = false →
  ∃ added,
    Session.messages (script_run st w) = Session.messages st ++ added
    ∧ (length added ≤ 2)%nat
    ∧ Forall (message_of w) added.
Proof.
  intros Hr. unfold script_run. rewrite Hr.
  pose proof (process_upload_messages w st) as Hm.
  set (st2 := process_upload w st) in *. clearbody st2.
  assert (Session.messages
            (if Session.file_processed st2 && view_hide_clicked w
             then toggle_abc_view st2 else st2) = Session.messages st) as Hm3
    by (by destruct (_ && _)).
  set (st3 := if Session.file_processed st2 && view_hide_clicked w
              then toggle_abc_view st2 else st2) in *.
  clearbody st3. unfold chat_turn.
  assert (∃ added, Session.messages st3 = Session.messages st ++ added
                   ∧ (length added ≤ 2)%nat ∧ Forall (message_of w) added)
    as Hnone.
  { exists []. rewrite app_nil_r. split; [done|]. split; [cbn; lia|done]. }
  destruct (_ && _); [|done].
  destruct (prompt w) as [text|] eqn:Hprompt; [|done].
  destruct (Py.truthy_str text); [|done].
  cbn zeta. destruct (run_stopped w).
  - exists [("user", text)]. cbn. rewrite Hm3. split; [done|].
    split; [lia|]. constructor; [|done]. left. by exists text.
  - exists [("user", text); ("assistant", full_response (reply w))]. cbn.
    rewrite Hm3, <-app_assoc. split; [done|]. split; [lia|].
    constructor; [left; by exists text|]. constructor; [by right|done].
Qed.

(** As long as the reset button is not clicked the history only grows: after
    any number of runs, stopped or not, the messages from before are still
    the first messages, in their order and unchanged; at most two messages
    come per run, and every message that came is the prompt of one of the
    runs, as a user message, or the answer of one of them (the streamed
    text, or the apology when the call failed). *)
Theorem history_append_only (st : Session.t) (ws : list Widgets) :
  Forall (λ w, reset_clicked w = false) ws →
  ∃ added,
    Session.messages (foldl script_run st ws) = Session.messages st ++ added
    ∧ (length added ≤ 2 * length ws)%nat
    ∧ Forall (λ message, ∃ w, w ∈ ws ∧ message_of w message) added.
Proof.
  intros Hws. revert st.
  induction Hws as [|w ws Hw _ IH]; intros st.
  - exists []. rewrite app_nil_r. split; [done|]. split; [cbn; lia|done].
  - cbn [foldl].
    destruct (script_run_added st w Hw) as (added1 & Hm1 & Hl1 & Hf1).
    destruct (IH (script_run st w)) as (added2 & Hm2 & Hl2 & Hf2).
    exists (added1 ++ added2). rewrite Hm2, Hm1, <-app_assoc.
    split; [done|]. split; [rewrite length_app; cbn [length]; lia|].
    apply Forall_app. split.
    + eapply Forall_impl; [exact Hf1|]. intros m Hm. exists w.
      split; [by left|done].
    + eapply Forall_impl; [exact Hf2|]. intros m (w' & Hin & Hm).
      exists w'. split; [by right|done].
Qed.

(** [first_file_stays] on a session that uploads a second file. *)
Lemma first_file_stays_witness :
  let first := upload_run two_meters in
  let second :=
    {| openai_api_key := "k"; uploaded_file := File (Some empty_song);
       reset_clicked := true; view_hide_clicked := true;
       prompt := Some "Which key?"; reply := Streamed [Some "G"];
       run_stopped := false |} in
  Session.abc_notation (session_after [first; second])
  = Session.abc_notation (session_after [first]).
Proof.
  intros first second.
  assert (Session.file_processed (session_after [first]) = true) as Hp
    by (by vm_compute).
  destruct (first_file_stays (session_after [first]) [second] Hp) as [_ Hkeep].
  exact Hkeep.
Defined.

(** [history_append_only] on two questions after the upload, the first in
    a run that is stopped. *)
Lemma history_append_only_witness :
  let asked :=
    [question_run "Which key?" Failed true;
     question_run "Which meter?" Failed false] in
  ∃ added,
    Session.messages
      (foldl script_run (session_after [upload_run two_meters]) asked)
    = Session.messages (session_after [upload_run two_meters]) ++ added
    ∧ (length added ≤ 4)%nat.
Proof.
  intros asked.
  destruct (history_append_only (session_after [upload_run two_meters]) asked)
    as (added & Hm & Hl & _).
  - by repeat constructor.
  - exists added. split; [exact Hm|exact Hl].
Defined.

(** ** Line wrapping *)

Lemma chunks_fuel_nil (fuel n : nat) : Py.chunks_fuel fuel n [] = [].
Proof. by destruct fuel. Qed.

Lemma chunks_fuel_split (n : nat) :
  (0 < n)%nat →
  ∀ (fuel : nat) (l : list string),
    (length l ≤ fuel)%nat → l ≠ [] →
    ∃ full last,
      Py.chunks_fuel fuel n l = full ++ [last]
      ∧ concat full ++ last = l
      ∧ Forall (λ chunk, length chunk = n) full
      ∧ (0 < length last ≤ n)%nat.
Proof.
  intros Hn fuel. induction fuel as [|fuel IH]; intros l Hlen Hne.
  { destruct l; [done|cbn in Hlen; lia]. }
  destruct l as [|t l]; [done|]. cbn [Py.chunks_fuel].
  destruct (decide (drop n (t :: l) = [])) as [Hd|Hd].
  - rewrite Hd, chunks_fuel_nil. apply drop_nil_inv in Hd.
    exists [], (t :: l). rewrite take_ge by done.
    split; [done|]. split; [done|]. split; [done|]. cbn [length] in *. lia.
  - assert (n < length (t :: l))%nat as Hlong.
    { destruct (decide (n < length (t :: l))%nat); [done|].
      exfalso. apply Hd, drop_ge. lia. }
    destruct (IH (drop n (t :: l))) as (full & last & Hc & Hcat & Hfull & Hlast);
      [rewrite length_drop; cbn [length] in *; lia|done|].
    exists (take n (t :: l) :: full), last. rewrite Hc.
    split; [done|]. split; [|split; [|done]].
    + cbn [concat]. by rewrite <-app_assoc, Hcat, take_drop.
    + constructor; [|done]. apply length_take_le. lia.
Qed.

(** Wrapping a bar loses, repeats and moves no token: the lines are, in
    order, rows of exactly 16 tokens, each joined by spaces and closed by the
    continuation mark, and a last row of 1 to 16 tokens (of no token only for
    an empty bar) closed by the bar mark. *)
Theorem bar_lines_rows (bar_content : list string) :
  ∃ full last,
    bar_content = concat full ++ last
    ∧ Forall (λ row, length row = 16%nat) full
    ∧ (length last ≤ 16)%nat
    ∧ (last = [] → bar_content = [])
    ∧ bar_lines bar_content
      = ((λ row, Py.join " " row +:+ " " +:+ backslash) <$> full)
        ++ [Py.join " " last +:+ " |"].
Proof.
  unfold bar_lines.
  destruct (Z.ltb_spec 16 (Z.of_nat (length bar_content))) as [Hlong|Hshort].
  - destruct (chunks_fuel_split 16 ltac:(lia) (length bar_content) bar_content)
      as (full & last & Hc & Hcat & Hfull & Hlast); [done|by intros ->|].
    exists full, last. unfold Py.chunks. rewrite Hc.
    split; [done|]. split; [done|]. split; [lia|].
    split; [intros ->; cbn in Hlast; lia|].
    rewrite imap_app. cbn [imap]. f_equal.
    + rewrite <-imap_const. apply imap_ext. intros i row Hi. cbn.
      apply lookup_lt_Some in Hi.
      rewrite bool_decide_eq_false_2; [done|].
      rewrite length_app. cbn [length]. lia.
    + rewrite bool_decide_eq_true_2; [done|].
      rewrite length_app. cbn [length]. lia.
  - exists [], bar_content. cbn. split; [done|]. split; [done|].
    split; [lia|done].
Qed.

(** ** Technique markers *)

Lemma elem_of_flag (flag : bool) (marker m : string) :
  m ∈ (if flag then [marker] else []) ↔ flag = true ∧ m = marker.
Proof.
  destruct flag.
  - rewrite list_elem_of_singleton. naive_solver.
  - split; [by intros ?%elem_of_nil|by intros [? _]].
Qed.

Lemma sublist_flag (flag : bool) (marker : string) :
  (if flag then [marker] else []) `sublist_of` [marker].
Proof. destruct flag; [done|apply sublist_nil_l]. Qed.

Lemma note_level_effects_order (e : NoteEffect.t) :
  note_level_effects e `sublist_of` marker_order.
Proof.
  unfold note_level_effects, marker_order.
  apply (sublist_app _ ["b"] _ ["ho"; "po"; "h"; "s"; "v"; "pm"; "st"; "t"; "tr"]);
    [apply sublist_flag|].
  apply (sublist_app _ ["ho"; "po"] _ ["h"; "s"; "v"; "pm"; "st"; "t"; "tr"]).
  { destruct (NoteEffect.hammer e); [|apply sublist_nil_l].
    destruct (default true (NoteEffect.isHammerOn e)).
    - by apply sublist_skip, sublist_nil_l.
    - by apply sublist_cons, sublist_skip. }
  apply (sublist_app _ ["h"] _ ["s"; "v"; "pm"; "st"; "t"; "tr"]);
    [apply sublist_flag|].
  apply (sublist_app _ ["s"] _ ["v"; "pm"; "st"; "t"; "tr"]);
    [apply sublist_flag|].
  apply (sublist_app _ ["v"] _ ["pm"; "st"; "t"; "tr"]); [apply sublist_flag|].
  apply (sublist_app _ ["pm"] _ ["st"; "t"; "tr"]); [apply sublist_flag|].
  apply (sublist_app _ ["st"] _ ["t"; "tr"]); [apply sublist_flag|].
  apply (sublist_app _ ["t"] _ ["tr"]); [apply sublist_flag|].
  apply sublist_flag.
Qed.

Lemma elem_of_note_level_effects (e : NoteEffect.t) (m : string) :
  m ∈ note_level_effects e ↔
  (NoteEffect.bend e = true ∧ m = "b")
  ∨ (NoteEffect.hammer e = true
     ∧ m = if default true (NoteEffect.isHammerOn e) then "ho" else "po")
  ∨ (NoteEffect.harmonic e = true ∧ m = "h")
  ∨ (NoteEffect.slides e = true ∧ m = "s")
  ∨ (NoteEffect.vibrato e = true ∧ m = "v")
  ∨ (NoteEffect.palmMute e = true ∧ m = "pm")
  ∨ (NoteEffect.staccato e = true ∧ m = "st")
  ∨ (NoteEffect.tapping e = true ∧ m = "t")
  ∨ (NoteEffect.tremoloPicking e = true ∧ m = "tr").
Proof.
  unfold note_level_effects. by rewrite !elem_of_app, !elem_of_flag.
Qed.

Lemma elem_of_append_new (marker : string) (effects : list string) (m : string) :
  m ∈ append_new marker effects ↔ m ∈ effects ∨ m = marker.
Proof.
  unfold append_new. case_bool_decide as Hin.
  - by rewrite elem_of_app, list_elem_of_singleton.
  - naive_solver.
Qed.

Lemma append_new_split (marker : string) (effects : list string) :
  NoDup effects →
  ∃ added, append_new marker effects = effects ++ added
           ∧ added `sublist_of` [marker]
           ∧ NoDup (effects ++ added).
Proof.
  intros Hnd. unfold append_new. case_bool_decide as Hin.
  - exists [marker]. split; [done|]. split; [done|].
    apply NoDup_app. split; [done|]. split; [|apply NoDup_singleton].
    intros x Hx ->%list_elem_of_singleton. done.
  - exists []. rewrite app_nil_r. split; [done|]. split; [apply sublist_nil_l|done].
Qed.

(** The markers of a note are the note's own, in the order of the checks
    (bend, hammer-on or pull-off, harmonic, slide, vibrato, palm mute,
    staccato, tapping, tremolo picking), followed by what the beat adds, a
    slide and a vibrato at most; no marker comes twice; a hammer-on and a
    pull-off never come together; the slide marker stands exactly for a
    slide of the note or a tremolo bar or slide of the beat, and the vibrato
    marker for a vibrato of the note or of the beat. *)
Theorem effect_markers_shape (note : Note.t) (beat : Beat.t) :
  (∃ own added,
     effect_markers note beat = own ++ added
     ∧ own `sublist_of` marker_order
     ∧ added `sublist_of` ["s"; "v"])
  ∧ NoDup (effect_markers note beat)
  ∧ ¬ ("ho" ∈ effect_markers note beat ∧ "po" ∈ effect_markers note beat)
  ∧ ("s" ∈ effect_markers note beat ↔
     note_flag NoteEffect.slides note = true
     ∨ beat_flag BeatEffect.tremoloBar beat = true
     ∨ beat_flag BeatEffect.slide beat = true)
  ∧ ("v" ∈ effect_markers note beat ↔
     note_flag NoteEffect.vibrato note = true
     ∨ beat_flag BeatEffect.vibrato beat = true).
Proof.
  unfold effect_markers, note_flag, beat_flag.
  set (own := match Note.effect note with
              | Some e => note_level_effects e
              | None => []
              end).
  assert (own `sublist_of` marker_order) as Hown.
  { unfold own. destruct (Note.effect note);
      [apply note_level_effects_order|apply sublist_nil_l]. }
  assert (NoDup own) as Hnd.
  { eapply sublist_NoDup; [|exact Hown]. unfold marker_order.
    apply (bool_decide_unpack _). by vm_compute. }
  assert (∀ m, m ∈ own ↔
               match Note.effect note with
               | Some e => m ∈ note_level_effects e
               | None => False
               end) as Hmem.
  { intros m. unfold own. destruct (Note.effect note); [done|].
    split; [by intros ?%elem_of_nil|done]. }
  assert (¬ ("ho" ∈ own ∧ "po" ∈ own)) as Hhp.
  { rewrite !Hmem. destruct (Note.effect note) as [e|]; [|tauto].
    rewrite !elem_of_note_level_effects.
    destruct (default true (NoteEffect.isHammerOn e)); naive_solver. }
  assert ("s" ∈ own ↔
          match Note.effect note with
          | Some e => NoteEffect.slides e
          | None => false
          end = true) as Hs.
  { rewrite Hmem. destruct (Note.effect note) as [e|]; [|done].
    rewrite elem_of_note_level_effects.
    destruct (default true (NoteEffect.isHammerOn e)); naive_solver. }
  assert ("v" ∈ own ↔
          match Note.effect note with
          | Some e => NoteEffect.vibrato e
          | None => false
          end = true) as Hv.
  { rewrite Hmem. destruct (Note.effect note) as [e|]; [|done].
    rewrite elem_of_note_level_effects.
    destruct (default true (NoteEffect.isHammerOn e)); naive_solver. }
  clearbody own. clear Hmem.
  destruct (Beat.effect beat) as [e|].
  2:{ split; [exists own, []; rewrite app_nil_r;
               split; [done|]; split; [done|apply sublist_nil_l]|].
      split; [done|]. split; [done|]. rewrite Hs, Hv. naive_solver. }
  unfold beat_level_effects.
  set (with_slide := if BeatEffect.tremoloBar e || BeatEffect.slide e
                     then append_new "s" own else own).
  assert (∃ added1, with_slide = own ++ added1
                    ∧ added1 `sublist_of` ["s"] ∧ NoDup with_slide)
    as (added1 & Hw & Hsub1 & Hnd1).
  { unfold with_slide. destruct (_ || _).
    - destruct (append_new_split "s" own Hnd) as (a & -> & ? & ?). by exists a.
    - exists []. rewrite app_nil_r. split; [done|].
      split; [apply sublist_nil_l|done]. }
  assert (∀ m, m ∈ with_slide ↔
               m ∈ own
               ∨ (BeatEffect.tremoloBar e || BeatEffect.slide e = true
                  ∧ m = "s")) as Hmem1.
  { intros m. unfold with_slide. destruct (_ || _).
    - rewrite elem_of_append_new. naive_solver.
    - naive_solver. }
  clearbody with_slide.
  set (all := if BeatEffect.vibrato e then append_new "v" with_slide
              else with_slide).
  assert (∃ added2, all = with_slide ++ added2
                    ∧ added2 `sublist_of` ["v"] ∧ NoDup all)
    as (added2 & Ha & Hsub2 & Hnd2).
  { unfold all. destruct (BeatEffect.vibrato e).
    - destruct (append_new_split "v" with_slide Hnd1) as (a & -> & ? & ?).
      by exists a.
    - exists []. rewrite app_nil_r. split; [done|].
      split; [apply sublist_nil_l|done]. }
  assert (∀ m, m ∈ all ↔
               m ∈ with_slide ∨ (BeatEffect.vibrato e = true ∧ m = "v"))
    as Hmem2.
  { intros m. unfold all. destruct (BeatEffect.vibrato e).
    - rewrite elem_of_append_new. naive_solver.
    - naive_solver. }
  clearbody all.
  split; [|split; [done|split; [|split]]].
  - exists own, (added1 ++ added2). rewrite Ha, Hw, <-app_assoc.
    split; [done|]. split; [done|].
    by apply (sublist_app _ ["s"] _ ["v"]).
  - rewrite !Hmem2, !Hmem1. naive_solver.
  - rewrite Hmem2, Hmem1, Hs, orb_true_iff. naive_solver.
  - rewrite Hmem2, Hmem1, Hv. naive_solver.
Qed.

(** ** Where a note is read, and when the transcoder raises *)

(** The open pitch by string number, for [n] strings: numbers 1 to [n] read
    the strings in declaration order; numbers from [1 - n] to 0 wrap around
    and read the strings from the end (0 is the last string); numbers at or
    below [- n] raise [IndexError]. *)
Theorem note_pitch_by_string (strings : list Z) (note : Note.t) :
  let n := Z.of_nat (length strings) in
  let s := Note.string note in
  (1 ≤ s ≤ n →
   ∃ open_pitch,
     strings !! Z.to_nat (s - 1) = Some open_pitch
     ∧ note_pitch strings note = Ok (open_pitch + Note.value note)
     ∧ chord_pitches strings [note] = Ok [open_pitch + Note.value note])
  ∧ (- n < s ≤ 0 →
     ∃ open_pitch,
       strings !! Z.to_nat (n + s - 1) = Some open_pitch
       ∧ note_pitch strings note = Ok (open_pitch + Note.value note)
       ∧ chord_pitches strings [note] = Ok [open_pitch + Note.value note])
  ∧ (s ≤ - n →
     note_pitch strings note = Raise IndexError
     ∧ chord_pitches strings [note] = Raise IndexError).
Proof.
  intros n s. unfold note_pitch, chord_pitches. cbn [for_each]. fold s n.
  split; [|split]; intros Hs.
  - destruct (Z.leb_spec s n); [|lia]. unfold Py.index. fold n.
    destruct (Z.ltb_spec (s - 1) 0); [lia|].
    destruct (Z.leb_spec 0 (s - 1)); [|lia].
    destruct (Z.ltb_spec (s - 1) n); [|lia]. cbn [andb].
    destruct (lookup_lt_is_Some_2 strings (Z.to_nat (s - 1))) as [x Hx];
      [lia|].
    exists x. by rewrite Hx.
  - destruct (Z.leb_spec s n); [|lia]. unfold Py.index. fold n.
    destruct (Z.ltb_spec (s - 1) 0); [|lia].
    destruct (Z.leb_spec 0 (s - 1 + n)); [|lia].
    destruct (Z.ltb_spec (s - 1 + n) n); [|lia]. cbn [andb].
    replace (n + s - 1) with (s - 1 + n) by lia.
    destruct (lookup_lt_is_Some_2 strings (Z.to_nat (s - 1 + n))) as [x Hx];
      [lia|].
    exists x. by rewrite Hx.
  - destruct (Z.leb_spec s n); [|lia]. unfold Py.index. fold n.
    destruct (Z.ltb_spec (s - 1) 0); [|lia].
    by destruct (Z.leb_spec 0 (s - 1 + n)); [lia|].
Qed.

(** The theorem on a six-string track, at string 0 (the last string, open
    pitch 40) and at string -6. *)
Lemma note_pitch_by_string_witness :
  note_pitch six_strings (plain_note 0 2) = Ok 42
  ∧ note_pitch six_strings (plain_note (-6) 2) = Raise IndexError.
Proof.
  destruct (note_pitch_by_string six_strings (plain_note 0 2))
    as (_ & Hwrap & _).
  destruct (note_pitch_by_string six_strings (plain_note (-6) 2))
    as (_ & _ & Hraise).
  split.
  - destruct Hwrap as (open_pitch & Hopen & Hpitch & _); [cbn; lia|].
    injection Hopen as <-. exact Hpitch.
  - apply Hraise. cbn. lia.
Defined.










(** ** Section tags *)

Lemma append_cons (x : ascii) (a b : string) :
  String x a +:+ b = String x (a +:+ b).
Proof. reflexivity. Qed.

Lemma prefix_spec (p s : string) :
  String.prefix p s = true ↔ ∃ v, s = p +:+ v.
Proof.
  revert s. induction p as [|a p IH]; intros s.
  - split; [intros _; by exists s|by destruct s].
  - destruct s as [|b s]; simpl; [split; [done|by intros [? ?]]|].
    destruct (ascii_dec a b) as [->|Hne].
    + rewrite IH. split; intros [v Hv]; exists v.
      * by rewrite append_cons, Hv.
      * rewrite append_cons in Hv. by injection Hv.
    + split; [done|]. intros [v Hv]. rewrite append_cons in Hv.
      by injection Hv.
Qed.

Lemma string_app_assoc (a b c : string) : (a +:+ b) +:+ c = a +:+ (b +:+ c).
Proof.
  induction a as [|x a IH]; [done|]. by rewrite !append_cons, IH.
Qed.

(** [p in s] holds exactly when [s] is some text, then [p], then some
    text. *)
Lemma contains_spec (p s : string) :
  Py.contains p s = true ↔ ∃ u v, s = u +:+ p +:+ v.
Proof.
  induction s as [|b s IH].
  - cbn [Py.contains]. rewrite orb_false_r, prefix_spec. split.
    + intros [v Hv]. by exists "", v.
    + intros (u & v & Huv). destruct u; [by exists v|done].
  - rewrite contains_cons, orb_true_iff, prefix_spec, IH. split.
    + intros [[v Hv]|(u & v & Huv)].
      * by exists "", v.
      * exists (String b u), v. by rewrite append_cons, Huv.
    + intros (u & v & Huv). destruct u as [|a u].
      * left. by exists v.
      * right. exists u, v. rewrite append_cons in Huv. by injection Huv.
Qed.

Lemma contains_part (before p after s : string) :
  Py.contains (before +:+ p +:+ after) s = true → Py.contains p s = true.
Proof.
  rewrite !contains_spec. intros (u & v & ->).
  exists (u +:+ before), (after +:+ v).
  by rewrite !string_app_assoc.
Qed.

(** The keyword lists are tried in the order of the table, and the words of
    the pre-chorus list all hold a word of an earlier list ("chorus",
    "verse"): no text is ever tagged ["PRE-CHORUS"], a text that names a
    pre-chorus is tagged ["CHORUS"] or ["VERSE"]; the tag, when there is
    one, is one of the other seven. *)
Theorem section_type_never_pre_chorus (section_text : string) :
  section_type_of section_text ≠ Some "PRE-CHORUS"
  ∧ (section_type_of section_text
     ∈ [None; Some "VERSE"; Some "CHORUS"; Some "BRIDGE"; Some "INTRO";
        Some "OUTRO"; Some "SOLO"; Some "INTERLUDE"])
  ∧ (Py.contains "chorus" (Py.lower section_text) = true →
     section_type_of section_text ∈ [Some "VERSE"; Some "CHORUS"])
  ∧ (Py.contains "verse" (Py.lower section_text) = true →
     section_type_of section_text = Some "VERSE").
Proof.
  unfold section_type_of, section_keywords. cbn [find snd].
  set (s := Py.lower section_text).
  set (f := λ keyword, Py.contains (Py.lower keyword) s).
  assert (∀ keyword keywords,
            keyword ∈ keywords → f keyword = true →
            existsb f keywords = true) as Hhit.
  { intros keyword keywords Hin Hk. apply existsb_exists. exists keyword.
    split; [by apply list_elem_of_In|done]. }
  assert (∀ before word after,
            f (before +:+ word +:+ after) = true →
            Py.lower (before +:+ word +:+ after)
            = before +:+ Py.lower word +:+ after →
            f word = true) as Hpart.
  { unfold f. intros before word after Hk Hl. rewrite Hl in Hk.
    by apply contains_part in Hk. }
  assert (existsb f ["pre-chorus"; "pre chorus"; "prechorus"; "pre-verse"]
          = true →
          f "chorus" = true ∨ f "verse" = true) as Hpre.
  { intros (keyword & Hin & Hk)%existsb_exists.
    repeat (destruct Hin as [<-|Hin]); [..|done].
    - left. by apply (Hpart "pre-" "chorus" "").
    - left. by apply (Hpart "pre " "chorus" "").
    - left. by apply (Hpart "pre" "chorus" "").
    - right. by apply (Hpart "pre-" "verse" ""). }
  assert (f "verse" = true →
          existsb f ["verse"; "v1"; "v2"; "v3"; "v4"; "verse 1"; "verse 2"]
          = true) as Hverse by (apply Hhit; set_solver).
  assert (f "chorus" = true →
          existsb f ["chorus"; "ch"; "chor"; "refrain"] = true) as Hchorus
    by (apply Hhit; set_solver).
  change (Py.contains "chorus" s) with (f "chorus").
  change (Py.contains "verse" s) with (f "verse").
  clearbody f. clear Hhit Hpart.
  destruct (existsb f ["verse"; "v1"; "v2"; "v3"; "v4"; "verse 1"; "verse 2"])
    eqn:H1.
  { cbn. split; [done|]. split; [set_solver|]. split; [set_solver|done]. }
  destruct (existsb f ["chorus"; "ch"; "chor"; "refrain"]) eqn:H2.
  { cbn. split; [done|]. split; [set_solver|]. split; [set_solver|].
    intros Hk. apply Hverse in Hk. congruence. }
  assert (existsb f ["pre-chorus"; "pre chorus"; "prechorus"; "pre-verse"]
          = false) as H7.
  { apply not_true_is_false. intros [Hk|Hk]%Hpre.
    - apply Hchorus in Hk. congruence.
    - apply Hverse in Hk. congruence. }
  rewrite H7.
  assert (f "chorus" = true → False) as Hnc
    by (intros Hk; apply Hchorus in Hk; congruence).
  assert (f "verse" = true → False) as Hnv
    by (intros Hk; apply Hverse in Hk; congruence).
  destruct (existsb f ["bridge"; "br"; "middle eight"]);
    [cbn; split; [done|]; split; [set_solver|]; split; intros Hk; tauto|].
  destruct (existsb f ["intro"; "introduction"]);
    [cbn; split; [done|]; split; [set_solver|]; split; intros Hk; tauto|].
  destruct (existsb f ["outro"; "ending"; "coda"; "end"]);
    [cbn; split; [done|]; split; [set_solver|]; split; intros Hk; tauto|].
  destruct (existsb f
              ["solo"; "instrumental"; "inst"; "guitar solo"; "bass solo"]);
    [cbn; split; [done|]; split; [set_solver|]; split; intros Hk; tauto|].
  destruct (existsb f ["interlude"; "break"; "intermezzo"]);
    cbn; (split; [done|]); (split; [set_solver|]); split; intros Hk; tauto.
Qed.

(** Of the four header texts, tried in the order text, direction,
    annotation, comment, only the first that is not blank gives a tag, built
    from its stripped text; the texts after it are not looked at, and blank
    texts give nothing. *)
Theorem text_lines_first (attrs : list (option string)) :
  (Forall blank_text attrs → text_lines attrs = [])
  ∧ (∀ skipped text_value rest,
       attrs = skipped ++ Some text_value :: rest →
       Forall blank_text skipped →
       Py.strip text_value ≠ "" →
       text_lines attrs = [text_tag text_value]).
Proof.
  assert (∀ text_value,
            Py.strip text_value = "" →
            Py.truthy_str text_value && Py.truthy_str (Py.strip text_value)
            = false) as Hblank.
  { intros text_value ->. by rewrite andb_false_r. }
  assert (∀ skipped rest,
            Forall blank_text skipped →
            text_lines (skipped ++ rest) = text_lines rest) as Hskip.
  { intros skipped rest Hall.
    induction Hall as [|[text_value|] skipped Hb _ IH]; cbn [app text_lines];
      [done| |done].
    by rewrite (Hblank _ Hb). }
  split.
  - intros Hall. rewrite <-(app_nil_r attrs). by rewrite Hskip.
  - intros skipped text_value rest -> Hall Hne.
    rewrite Hskip by done. cbn [text_lines]. unfold text_tag.
    assert (Py.truthy_str (Py.strip text_value) = true) as ->.
    { unfold Py.truthy_str. by destruct (String.eqb_spec (Py.strip text_value) ""). }
    assert (Py.truthy_str text_value = true) as ->.
    { unfold Py.truthy_str.
      destruct (String.eqb_spec text_value "") as [->|]; done. }
    cbn [andb]. by destruct (section_type_of _).
Qed.

(** The theorem on a header whose text is blank and whose direction names a
    chorus: the direction gives the tag, the comment after it none. *)
Lemma text_lines_first_witness :
  text_lines [Some "  "; Some " Chorus 2 "; None; Some "Solo"]
  = ["{SECTION: CHORUS - Chorus 2}"].
Proof.
  destruct (text_lines_first [Some "  "; Some " Chorus 2 "; None; Some "Solo"])
    as [_ Hfirst].
  apply (Hfirst [Some "  "] " Chorus 2 " [None; Some "Solo"]).
  - reflexivity.
  - by repeat constructor.
  - by vm_compute.
Defined.

(** ** The key in the preamble *)

Lemma key_line_in_preamble (song : Song.t) (ctx : Context) :
  key_line (key_text ctx) ∈ preamble song ctx.
Proof.
  unfold preamble, key_line. rewrite !elem_of_app.
  do 10 right. left. apply list_elem_of_singleton. done.
Qed.

(** The key line of the preamble follows the mode only for a numeric key
    signature: with a true minor flag it names the tonic of the minor table
    followed by "minor", with a false one the tonic of the major table
    followed by "major".  A key given by name is always announced as major,
    also when the name holds ["Minor"], and no key signature gives C major. *)
Theorem key_line_mode (song : Song.t) (ctx : Context) :
  resolve_context song = Ok ctx →
  key_line (key_text ctx) ∈ preamble song ctx
  ∧ match Song.key song with
    | KeyAbsent => key_line (key_text ctx) = "Key: C major"
    | KeyObject None name | KeyText name =>
        key_line (key_text ctx)
        = "Key: " +:+ key_from_name "C" name +:+ " major"
    | KeyPair sharps is_minor | KeyObject (Some (sharps, is_minor)) _ =>
        if Py.truthy_int is_minor
        then ∃ tonic, minor_map !! sharps = Some (tonic +:+ "m")
                      ∧ key_line (key_text ctx)
                        = "Key: " +:+ tonic +:+ " minor"
        else ∃ tonic, major_map !! sharps = Some tonic
                      ∧ key_line (key_text ctx)
                        = "Key: " +:+ tonic +:+ " major"
    end.
Proof.
  intros Hctx. split; [apply key_line_in_preamble|].
  unfold resolve_context in Hctx.
  destruct (resolve_key (Song.key song)) as [k|] eqn:Hk; [|done].
  cbn [mbind result_bind] in Hctx.
  destruct (resolve_time_signature song). injection Hctx as <-.
  cbn [key_text].
  assert (∀ sharps is_minor,
            resolve_key (KeyPair sharps is_minor) = Ok k →
            if Py.truthy_int is_minor
            then ∃ tonic, minor_map !! sharps = Some (tonic +:+ "m")
                          ∧ key_line k = "Key: " +:+ tonic +:+ " minor"
            else ∃ tonic, major_map !! sharps = Some tonic
                          ∧ key_line k = "Key: " +:+ tonic +:+ " major")
    as Hpair.
  { intros sharps is_minor Hr.
    destruct (resolve_key_numeric sharps is_minor "") as (_ & _ & Hiff & _).
    assert (sharps ∈ [-7; -6; -5; -4; -3; -2; -1; 0; 1; 2; 3; 4; 5; 6; 7])
      as Hin.
    { assert (-7 ≤ sharps ≤ 7) as Hs by (apply Hiff; by eexists).
      assert (∃ n : nat, sharps = -7 + Z.of_nat n ∧ (n < 15)%nat)
        as (n & -> & Hn) by (exists (Z.to_nat (sharps + 7)); lia).
      clear Hs Hr Hiff. do 15 (destruct n as [|n]; [set_solver|]). lia. }
    cbn in Hr. unfold Py.getitem in Hr.
    destruct (Py.truthy_int is_minor);
      repeat (apply elem_of_cons in Hin as [->|Hin];
              [vm_compute in Hr; injection Hr as <-;
               match goal with
               | |- ∃ _, _ ∧ key_line ?key = _ =>
                   first [ exists (Py.drop_last key); split; by vm_compute
                         | exists key; split; by vm_compute ]
               end|]);
      by apply elem_of_nil in Hin. }
  assert (∀ name, key_line (key_from_name "C" name)
                  = "Key: " +:+ key_from_name "C" name +:+ " major") as Hname.
  { intros name. destruct (resolve_key_name name) as (_ & _ & Hin & _).
    unfold key_note_names in Hin.
    repeat (apply elem_of_cons in Hin as [->|Hin]; [done|]).
    by apply elem_of_nil in Hin. }
  destruct (Song.key song)
    as [|sharps is_minor|[[sharps is_minor]|] name|text].
  - by injection Hk as <-.
  - by apply Hpair.
  - by apply Hpair.
  - cbn in Hk. injection Hk as <-. apply Hname.
  - destruct text as [|c text]; [cbn in Hk; by injection Hk as <-|].
    cbn [resolve_key Py.truthy_str String.eqb negb] in Hk.
    destruct (2 <=? String.length (String c text))%nat; [done|].
    injection Hk as <-. apply Hname.
Qed.

(** The theorem on a song whose key is the object named A minor: the
    preamble says "Key: A major". *)
Lemma key_line_mode_witness :
  ∃ ctx,
    resolve_context
      {| Song.tempo := 60; Song.key := KeyObject None "KeySignature.AMinor";
         Song.tracks := []; Song.title := None; Song.artist := None;
         Song.album := None; Song.composer := None; Song.copyright := "";
         Song.instructions := ""; Song.notice := ""; Song.subtitles := [] |}
    = Ok ctx
    ∧ key_line (key_text ctx) = "Key: A major".
Proof.
  eexists. split; [reflexivity|].
  match goal with
  | |- key_line (key_text ?ctx) = _ =>
      destruct (key_line_mode
                  {| Song.tempo := 60;
                     Song.key := KeyObject None "KeySignature.AMinor";
                     Song.tracks := []; Song.title := None;
                     Song.artist := None; Song.album := None;
                     Song.composer := None; Song.copyright := "";
                     Song.instructions := ""; Song.notice := "";
                     Song.subtitles := [] |} ctx eq_refl) as [_ Hline]
  end.
  exact Hline.
Defined.

(** ** The tuning line *)

Lemma tuning_names_map (pitches : list Z) :
  for_each
    (λ p, n ← Py.index tuning_note_names (p mod 12);
          Ok [n +:+ Py.str (p / 12 - 1)])
    pitches
  = Ok (tuning_name <$> pitches).
Proof.
  induction pitches as [|p pitches IH]; [done|]. cbn [for_each fmap list_fmap].
  destruct (index_in_range tuning_note_names (p mod 12)) as (n & Hn & ->);
    [by apply Z.mod_pos_bound|].
  cbn [mbind result_bind]. rewrite IH. cbn [mbind result_bind app].
  unfold tuning_name. by rewrite Hn.
Qed.

(** The tuning line never fails and names every declared string once, from
    the highest open pitch down to the lowest, whatever the order in which
    the strings are declared: two tracks with the same strings in another
    order have the same tuning line. *)
Theorem tuning_names_sorted (track : Track.t) :
  (∃ pitches,
     tuning_names track = Ok (tuning_name <$> pitches)
     ∧ pitches ≡ₚ Track.strings track
     ∧ StronglySorted Z.ge pitches)
  ∧ (∀ track',
       Track.strings track' ≡ₚ Track.strings track →
       tuning_names track' = tuning_names track).
Proof.
  split.
  - exists (reverse (Py.sorted (Track.strings track))).
    split; [apply tuning_names_map|]. split.
    + rewrite reverse_Permutation. apply merge_sort_Permutation.
    + assert (StronglySorted Z.le (Py.sorted (Track.strings track))) as Hs
        by (apply StronglySorted_merge_sort; apply _).
      induction Hs as [|x l _ IH Hx]; [constructor|].
      rewrite reverse_cons.
      apply StronglySorted_app_2; [|done|by repeat constructor].
      intros y z Hy ->%list_elem_of_singleton.
      rewrite elem_of_reverse in Hy. rewrite Forall_forall in Hx.
      specialize (Hx y Hy). lia.
  - intros track' Hp. unfold tuning_names. by rewrite (sorted_perm _ _ Hp).
Qed.

(** ** Chords *)

Lemma pitch_tokens_map (pitches : list Z) :
  for_each (λ p, s ← midi_to_abc p; Ok [s]) pitches = Ok (abc_token <$> pitches).
Proof.
  induction pitches as [|p pitches IH]; [done|]. cbn [for_each fmap list_fmap].
  rewrite midi_to_abc_token. cbn [mbind result_bind]. rewrite IH. done.
Qed.

Lemma name_map_nonempty (root : Z) (root_name : string) :
  name_map !! root = Some root_name → root_name ≠ "".
Proof.
  intros Hl. apply elem_of_list_to_map_2 in Hl.
  repeat (apply elem_of_cons in Hl as [Hl|Hl]; [by injection Hl as _ ->|]).
  by apply elem_of_nil in Hl.
Qed.

Lemma chord_label_nonempty (pitches : list Z) (label : string) :
  chord_label pitches = Some label → Py.truthy_str label = true.
Proof.
  unfold chord_label. destruct (remove_dups _) as [|pc pcs']; [done|].
  cbn zeta. destruct (chord_suffix _ _) as [suffix|]; [|done].
  cbn [mbind option_bind].
  destruct (name_map !! _) as [root_name|] eqn:Hn; [|done].
  cbn [mbind option_bind]. intros [= <-].
  apply name_map_nonempty in Hn. by destruct root_name.
Qed.

(** A beat of several notes whose string numbers do not raise is written as
    one bracket and the length of the beat: in the bracket the chord label
    whenever the pitches are recognized (a label is never dropped), and
    otherwise the tokens of all the pitches in ascending order; the pitches
    are those of the notes on declared strings, so there are no more of them
    than notes. *)
Theorem chord_token_form (strings : list Z) (beat : Beat.t) :
  beat_ok strings beat →
  ∃ pitches,
    chord_pitches strings (Beat.notes beat) = Ok pitches
    ∧ (length pitches ≤ length (Beat.notes beat))%nat
    ∧ chord_token strings beat
      = Ok ("[" +:+ chord_body pitches +:+ "]"
            +:+ duration_suffix (Beat.duration beat)).
Proof.
  intros Hok. destruct (chord_pitches_ok _ _ Hok) as [pitches Hp].
  exists pitches. split; [done|]. split.
  - clear Hok. revert pitches Hp. unfold chord_pitches.
    induction (Beat.notes beat) as [|note notes IH]; intros pitches;
      cbn [for_each].
    + by intros [= <-].
    + destruct (if _ <=? _ then _ else _) as [ps|] eqn:Hn; [|done].
      cbn [mbind result_bind].
      destruct (for_each _ notes) as [rest|]; [|done].
      cbn [mbind result_bind]. intros [= <-]. rewrite length_app.
      specialize (IH rest eq_refl).
      assert (length ps ≤ 1)%nat; [|cbn [length]; lia].
      destruct (_ <=? _); [|injection Hn as <-; cbn [length]; lia].
      destruct (Py.index _ _); [|done]. injection Hn as <-. cbn [length]. lia.
  - unfold chord_token, chord_body. rewrite Hp. cbn [mbind result_bind].
    rewrite identify_chord_label. cbn [mbind result_bind].
    rewrite pitch_tokens_map.
    destruct (chord_label pitches) as [label|] eqn:Hl;
      [rewrite (chord_label_nonempty _ _ Hl)|];
      cbn [mbind result_bind]; by rewrite !string_app_assoc.
Qed.

(** The theorem on a recognized chord and on notes that make none. *)
Lemma chord_token_form_witness :
  chord_token six_strings
    {| Beat.duration := quarter;
       Beat.notes := [plain_note 6 8; plain_note 5 10; plain_note 4 10];
       Beat.text := None; Beat.effect := None |} = Ok "[C5]4"
  ∧ chord_token six_strings
      {| Beat.duration := quarter;
         Beat.notes := [plain_note 6 3; plain_note 5 5];
         Beat.text := None; Beat.effect := None |} = Ok "[G,,D,]4".
Proof.
  split.
  - match goal with
    | |- chord_token ?s ?b = _ =>
        destruct (chord_token_form s b) as (pitches & Hp & _ & ->)
    end.
    + repeat constructor; cbn; lia.
    + vm_compute in Hp. by injection Hp as <-.
  - match goal with
    | |- chord_token ?s ?b = _ =>
        destruct (chord_token_form s b) as (pitches & Hp & _ & ->)
    end.
    + repeat constructor; cbn; lia.
    + vm_compute in Hp. by injection Hp as <-.
Defined.

Lemma pitch_classes_same (pitches pitches' : list Z) :
  (∀ pc, pc ∈ (λ p, p mod 12) <$> pitches ↔ pc ∈ (λ p, p mod 12) <$> pitches') →
  pitch_classes pitches = pitch_classes pitches'.
Proof.
  intros Hsame. unfold pitch_classes.
  assert (list_to_set ((λ p, p mod 12) <$> pitches)
          =@{gset Z} list_to_set ((λ p, p mod 12) <$> pitches')) as ->; [|done].
  apply set_eq. intros pc. by rewrite !elem_of_list_to_set.
Qed.

(** The label depends on the pitch classes present and on nothing else:
    the order of the pitches, their octaves and their repetitions do not
    matter. *)
Theorem identify_chord_classes (pitches pitches' : list Z) :
  (∀ pc, pc ∈ (λ p, p mod 12) <$> pitches ↔ pc ∈ (λ p, p mod 12) <$> pitches') →
  identify_chord pitches = identify_chord pitches'.
Proof.
  intros Hsame. unfold identify_chord. by rewrite (pitch_classes_same _ _ Hsame).
Qed.

(** The theorem on a C major chord and the same chord spread over other
    octaves, in another order, with the root doubled. *)
Lemma identify_chord_classes_witness :
  identify_chord [76; 48; 67; 60] = identify_chord [60; 64; 67].
Proof.
  apply identify_chord_classes. intros pc.
  change (pc ∈ [4; 0; 7; 0] ↔ pc ∈ [0; 4; 7]).
  rewrite !elem_of_cons, !elem_of_nil. lia.
Defined.

(** Because the root is always the lowest pitch class, a power chord, a
    major triad and a minor triad in root position are labelled only when
    the pitch class of their root is one of C, C#, D, D#, E: from F upwards
    the fifth wraps below the root, another class becomes the root, and the
    chord gets no label. *)
Theorem chord_root_position (r : Z) :
  let pc := r mod 12 in
  let root_name := default "" (name_map !! pc) in
  identify_chord [r; r + 7]
  = Ok (if pc <=? 4 then Some (root_name +:+ "5") else None)
  ∧ identify_chord [r; r + 4; r + 7]
    = Ok (if pc <=? 4 then Some (root_name +:+ "maj") else None)
  ∧ identify_chord [r; r + 3; r + 7]
    = Ok (if pc <=? 4 then Some (root_name +:+ "min") else None).
Proof.
  intros pc root_name.
  assert (∀ k, (r + k) mod 12 = (pc + k) mod 12) as Hk
    by (intros k; unfold pc; by rewrite Z.add_mod_idemp_l).
  assert (r mod 12 = pc mod 12) as H0
    by (unfold pc; by rewrite Z.mod_mod).
  unfold identify_chord.
  rewrite (pitch_classes_same [r; r + 7] [pc; pc + 7]),
    (pitch_classes_same [r; r + 4; r + 7] [pc; pc + 4; pc + 7]),
    (pitch_classes_same [r; r + 3; r + 7] [pc; pc + 3; pc + 7]);
    [|intros c; cbn [fmap list_fmap]; by rewrite !Hk, H0..].
  fold (identify_chord [pc; pc + 7]) (identify_chord [pc; pc + 4; pc + 7])
    (identify_chord [pc; pc + 3; pc + 7]).
  unfold root_name. clear Hk H0 root_name.
  pose proof (pitch_class_cases r) as Hpc. fold pc in Hpc. clearbody pc.
  repeat (apply elem_of_cons in Hpc as [->|Hpc]; [by vm_compute|]).
  by apply elem_of_nil in Hpc.
Qed.

(** ** Reading pitch tokens back *)

Lemma concat_cons_char (c : ascii) (l : list string) :
  String.concat "" (String c "" :: l) = String c (String.concat "" l).
Proof. by destruct l. Qed.

Lemma count_char_mul (c : ascii) (n : Z) :
  0 ≤ n → count_char c (Py.mul (String c "") n) = n.
Proof.
  intros Hn. unfold Py.mul. rewrite <-(Z2Nat.id n) at 2 by done.
  generalize (Z.to_nat n) as k. clear. intros k.
  induction k as [|k IH]; [done|].
  cbn [replicate]. rewrite concat_cons_char. cbn [count_char].
  rewrite Ascii.eqb_refl, IH. lia.
Qed.

Lemma abc_to_midi_token (p : Z) : abc_to_midi (abc_token p) = Some p.
Proof.
  unfold abc_token, accidental, chromatic, pitch_letter.
  pose proof (Z.div_mod p 12 ltac:(done)) as Hp.
  pose proof (pitch_class_cases p) as Hpc.
  remember (p mod 12) as pc eqn:Epc. remember (p / 12 - 1) as octave eqn:Eo.
  assert (p = 12 * (octave + 1) + pc) as -> by lia. clear Hp Epc Eo.
  pose proof (count_char_mul "'" (octave - 5)) as Hup.
  pose proof (count_char_mul "," (4 - octave)) as Hdown.
  destruct (Z.eqb_spec octave 4) as [->|Hne];
    [|destruct (Z.leb_spec 5 octave) as [Ho|Ho]].
  - repeat (apply elem_of_cons in Hpc as [->|Hpc]);
      [..|by apply elem_of_nil in Hpc]; reflexivity.
  - specialize (Hup ltac:(lia)).
    repeat (apply elem_of_cons in Hpc as [->|Hpc]);
      [..|by apply elem_of_nil in Hpc];
      cbv -[Py.mul Z.add Z.mul Z.sub count_char]; rewrite Hup; f_equal; lia.
  - specialize (Hdown ltac:(lia)).
    repeat (apply elem_of_cons in Hpc as [->|Hpc]);
      [..|by apply elem_of_nil in Hpc];
      cbv -[Py.mul Z.add Z.mul Z.sub count_char]; rewrite Hdown; f_equal; lia.
Qed.

(** The pitch can be read back from the token the encoder writes: the
    letter and the optional ["^"] give the pitch class, the case of the
    letter and the number of marks give the octave.  So two pitches never
    share a token. *)
Theorem midi_to_abc_injective (p q : Z) :
  (token ← midi_to_abc p; Ok (abc_to_midi token)) = Ok (Some p)
  ∧ (midi_to_abc p = midi_to_abc q ↔ p = q).
Proof.
  rewrite !midi_to_abc_token. cbn [mbind result_bind].
  rewrite abc_to_midi_token. split; [done|]. split; [|by intros ->].
  intros [= Heq]. apply (f_equal abc_to_midi) in Heq.
  rewrite !abc_to_midi_token in Heq. by injection Heq.
Qed.

(** ** Lines of a measure *)

Lemma length_concat_rows (n : nat) (rows : list (list string)) :
  Forall (λ row, length row = n) rows →
  length (concat rows) = (n * length rows)%nat.
Proof.
  induction 1 as [|row rows Hrow _ IH]; cbn [concat length]; [lia|].
  rewrite length_app, IH, Hrow. lia.
Qed.

Lemma bar_lines_length (bar_content : list string) :
  length (bar_lines bar_content)
  = Nat.max 1 ((length bar_content + 15) / 16).
Proof.
  unfold bar_lines.
  destruct (Z.ltb_spec 16 (Z.of_nat (length bar_content))) as [Hlong|Hshort].
  - destruct (chunks_fuel_split 16 ltac:(lia) (length bar_content) bar_content)
      as (full & last & Hc & Hcat & Hfull & Hlast); [done|by intros ->|].
    rewrite length_imap. unfold Py.chunks. rewrite Hc, length_app.
    cbn [length]. rewrite <-Hcat, length_app, (length_concat_rows 16) by done.
    rewrite <-(Nat.div_unique (16 * length full + length last + 15) 16
                 (length full + 1) (length last - 1)) by lia.
    lia.
  - cbn [length].
    destruct (decide (length bar_content = 0%nat)) as [->|Hne]; [done|].
    rewrite <-(Nat.div_unique (length bar_content + 15) 16 1
                 (length bar_content - 1)) by lia.
    done.
Qed.

Lemma text_lines_length (attrs : list (option string)) :
  (length (text_lines attrs) ≤ 1)%nat.
Proof.
  induction attrs as [|[text_value|] attrs IH]; cbn [text_lines length];
    [lia| |done].
  destruct (_ && _); [|done]. destruct (section_type_of _); cbn; lia.
Qed.

Lemma header_lines_length (header : MeasureHeader.t) :
  (length (header_lines header) ≤ 4)%nat.
Proof.
  unfold header_lines. rewrite !length_app.
  pose proof (text_lines_length
                [MeasureHeader.text header; MeasureHeader.direction header;
                 MeasureHeader.annotation header;
                 MeasureHeader.comment header]).
  assert (length (marker_lines header) ≤ 1)%nat.
  { unfold marker_lines. destruct (MeasureHeader.marker header) as [m|];
      [destruct (Py.truthy_str m)|]; cbn; lia. }
  assert (length (alternative_lines header) ≤ 1)%nat.
  { unfold alternative_lines. destruct (Py.truthy_int _); cbn; lia. }
  assert (length (repeat_lines header) ≤ 1)%nat.
  { unfold repeat_lines. destruct (MeasureHeader.repeat header) as [rep|];
      [|cbn; lia].
    destruct (Py.truthy_int _); [cbn; lia|].
    destruct (Repeat.close rep); [cbn; lia|].
    destruct (Repeat.open rep); cbn; lia. }
  lia.
Qed.

(** A measure with a voice writes at most four tag lines and then the bar
    of its first voice alone: with [tokens] the number of tokens of the beats
    of that voice (one for a rest, one for a note or chord and one more for a
    text that is not blank), the bar takes one line up to 16 tokens and
    [(tokens + 15) / 16] lines beyond, also when the voice has no beat.  The
    other voices are not read: what stands in them changes nothing, also not
    whether the call raises. *)
Theorem measure_line_count (strings : list Z) (measure : Measure.t)
    (voice : Voice.t) (others : list Voice.t) :
  Measure.voices measure = voice :: others →
  Forall (beat_ok strings) (Voice.beats voice) →
  let tokens := sum_list (token_count <$> Voice.beats voice) in
  (∃ bars,
     measure_lines strings measure
     = Ok (header_lines (Measure.header measure) ++ bars)
     ∧ length bars = Nat.max 1 ((tokens + 15) / 16))
  ∧ (length (header_lines (Measure.header measure)) ≤ 4)%nat
  ∧ (∀ others',
       measure_lines strings
         {| Measure.header := Measure.header measure;
            Measure.voices := voice :: others' |}
       = measure_lines strings measure).
Proof.
  intros Hv Hok tokens. split; [|split].
  - unfold measure_lines. rewrite Hv.
    destruct (for_each_ok (beat_tokens strings) (Voice.beats voice))
      as [bar_content Hb].
    { eapply Forall_impl; [exact Hok|]. apply beat_tokens_ok. }
    rewrite Hb. cbn [mbind result_bind]. exists (bar_lines bar_content).
    split; [done|].
    by rewrite bar_lines_length, (bar_content_length _ _ _ Hb).
  - apply header_lines_length.
  - intros others'. unfold measure_lines. by rewrite Hv.
Qed.

(** The theorem on a measure of seventeen notes and one text: eighteen
    tokens, two lines. *)
Lemma measure_line_count_witness :
  ∃ bars,
    measure_lines six_strings crowded_measure
    = Ok (header_lines (Measure.header crowded_measure) ++ bars)
    ∧ length bars = 2%nat.
Proof.
  destruct (measure_line_count six_strings crowded_measure
              {| Voice.beats :=
                   [plain_beat None; plain_beat None;
                    plain_beat (Some "let ring")]
                   ++ replicate 14 (plain_beat None) |}
              [ {| Voice.beats := [beat_beyond_strings] |} ] eq_refl)
    as [(bars & Hl & Hn) _].
  - cbn. repeat constructor; cbn; lia.
  - exists bars. split; [exact Hl|]. rewrite Hn. by vm_compute.
Defined.
